(** * PlinkoGame: a shallow embedding of the on-chain ledger

    This development models the Solidity contract [PlinkoGame]
    (backend/contracts/PlinkoGame.sol) and proves properties of its
    entry points: daily check-in, turn purchase, the two play variants,
    the owner-only administration, and the read-only queries.

    Modelling choices, following the EVM and Solidity 0.8 semantics:
    - [uint256] values are [Z] in [0, 2^256 - 1]; Solidity 0.8 arithmetic
      is checked, so [+], [-] and [*] revert on overflow/underflow.
    - [mapping(address => Player)] is a total function with the all-zero
      record as default value; [address[]] is a list.
    - an entry point is a computation in a small state/revert monad;
      a transaction either commits its final state (with the emitted
      events appended to the log) or reverts, in which case the EVM
      discards every change: [exec] returns the pre-state.
    - non-payable entry points revert when [msg.value <> 0]; the payable
      [buyTurns] credits [msg.value] to the contract balance.
    - [euint32] handles are represented by the plaintext they encrypt
      (FHE.add is addition modulo 2^32); the FHE input-proof check
      [FHE.fromExternal] is a parameter of the development. The ACL
      calls [FHE.allowThis]/[FHE.allow] do not touch the ledger state. *)

From Stdlib Require Import ZArith String Sorting.Sorted.
From stdpp Require Import base list sorting.
Open Scope Z_scope.

(** ** Constants and checked arithmetic *)

Definition UINT256_MAX : Z := 2 ^ 256 - 1.
Definition TURN_PRICE : Z := 10 ^ 15.          (* 0.001 ether in wei *)
Definition DAILY_FREE_TURNS : Z := 3.
Definition SECONDS_PER_DAY : Z := 86400.

Definition address := Z.

(** ** Storage *)

Record Player := mkPlayer {
  totalScore : Z;          (* euint32, by its plaintext *)
  lastCheckInTime : Z;
  availableTurns : Z;
  gamesPlayed : Z
}.

Definition zero_player : Player := mkPlayer 0 0 0 0.

Inductive Event :=
| CheckedIn (player : address) (turnsGranted timestamp : Z)
| TurnsPurchased (player : address) (turnsBought amountPaid : Z)
| GamePlayed (player : address) (turnsRemaining : Z)
| ScoreUpdated (player : address) (gamesPlayed_ : Z)
| Withdrawal (owner_ : address) (amount : Z).

Record State := mkState {
  players : address -> Player;
  playerAddresses : list address;
  owner : address;
  balance : Z;                 (* address(this).balance *)
  logs : list Event            (* emitted events, oldest first *)
}.

(** Constructor: [owner = msg.sender]; every player record is zero. *)
Definition init (deployer : address) : State :=
  mkState (fun _ => zero_player) [] deployer 0 [].

Definition set_player (a : address) (p : Player) (s : State) : State :=
  mkState (fun b => if Z.eqb b a then p else players s b)
          (playerAddresses s) (owner s) (balance s) (logs s).

Definition set_playerAddresses (l : list address) (s : State) : State :=
  mkState (players s) l (owner s) (balance s) (logs s).

Definition set_owner (o : address) (s : State) : State :=
  mkState (players s) (playerAddresses s) o (balance s) (logs s).

Definition set_balance (b : Z) (s : State) : State :=
  mkState (players s) (playerAddresses s) (owner s) b (logs s).

Definition push_log (ev : Event) (s : State) : State :=
  mkState (players s) (playerAddresses s) (owner s) (balance s) (logs s ++ [ev]).

Definition with_lastCheckInTime (t : Z) (p : Player) : Player :=
  mkPlayer (totalScore p) t (availableTurns p) (gamesPlayed p).
Definition with_availableTurns (n : Z) (p : Player) : Player :=
  mkPlayer (totalScore p) (lastCheckInTime p) n (gamesPlayed p).
Definition with_gamesPlayed (n : Z) (p : Player) : Player :=
  mkPlayer (totalScore p) (lastCheckInTime p) (availableTurns p) n.
Definition with_totalScore (v : Z) (p : Player) : Player :=
  mkPlayer v (lastCheckInTime p) (availableTurns p) (gamesPlayed p).

(** ** The transaction monad: state passing with revert *)

Inductive result (A : Type) :=
| Ok (v : A) (s : State)
| Revert (reason : string).
Arguments Ok {A} v s.
Arguments Revert {A} reason.

Definition M (A : Type) := State -> result A.

Definition ret {A} (x : A) : M A := fun s => Ok x s.
Definition bind {A B} (m : M A) (k : A -> M B) : M B :=
  fun s => match m s with Ok x s' => k x s' | Revert r => Revert r end.
Definition revert {A} (reason : string) : M A := fun _ => Revert reason.
Definition get : M State := fun s => Ok s s.
Definition modify (f : State -> State) : M unit := fun s => Ok tt (f s).

Notation "x <- m ;; k" := (bind m (fun x => k))
  (at level 100, m at next level, right associativity).
Notation "m ;;; k" := (bind m (fun _ => k))
  (at level 100, right associativity).

Definition require (b : bool) (reason : string) : M unit :=
  if b then ret tt else revert reason.

Definition emit (ev : Event) : M unit := modify (push_log ev).

Definition checked_add (a b : Z) : M Z :=
  if a + b <=? UINT256_MAX then ret (a + b) else revert "Panic(0x11)".
Definition checked_sub (a b : Z) : M Z :=
  if b <=? a then ret (a - b) else revert "Panic(0x11)".
Definition checked_mul (a b : Z) : M Z :=
  if a * b <=? UINT256_MAX then ret (a * b) else revert "Panic(0x11)".

(** [players[a]] as a storage read. *)
Definition load_player (a : address) : M Player :=
  s <- get ;; ret (players s a).
Definition store_player (a : address) (p : Player) : M unit :=
  modify (set_player a p).

(** ** Transaction context and calls *)

Record Env := mkEnv {
  msg_sender : address;
  msg_value : Z;
  block_timestamp : Z
}.

Definition wf_env (e : Env) : Prop :=
  0 <= msg_value e <= UINT256_MAX /\ 0 <= block_timestamp e <= UINT256_MAX.

Inductive Call :=
| DailyCheckIn
| BuyTurns (turnCount : Z)
| DropBall (encryptedScore : Z) (inputProof : list Byte.byte)
| PlayTurn
| Withdraw
| TransferOwnership (newOwner : address).

Definition wf_call (c : Call) : Prop :=
  match c with
  | BuyTurns n => 0 <= n <= UINT256_MAX
  | _ => True
  end.

Section Contract.

(** The FHE library's [FHE.fromExternal]: decodes an external ciphertext
    if its input proof is valid, and reverts otherwise. *)
Variable fromExternal : Z -> list Byte.byte -> option Z.

(** [FHE.add] on [euint32]: addition modulo 2^32. *)
Definition fhe_add (a b : Z) : Z := (a + b) mod 2 ^ 32.

Definition fhe_fromExternal (enc : Z) (proof : list Byte.byte) : M Z :=
  match fromExternal enc proof with
  | Some v => ret v
  | None => revert "FHE: invalid input proof"
  end.

Definition nonpayable (e : Env) : M unit :=
  require (msg_value e =? 0) "non-payable".

Definition dailyCheckIn (e : Env) : M unit :=
  nonpayable e ;;;
  player <- load_player (msg_sender e) ;;
  due <- checked_add (lastCheckInTime player) SECONDS_PER_DAY ;;
  require (due <=? block_timestamp e) "Already checked in today" ;;;
  (if lastCheckInTime player =? 0
   then s <- get ;; modify (set_playerAddresses (playerAddresses s ++ [msg_sender e]))
   else ret tt) ;;;
  turns <- checked_add (availableTurns player) DAILY_FREE_TURNS ;;
  store_player (msg_sender e)
    (with_lastCheckInTime (block_timestamp e) (with_availableTurns turns player)) ;;;
  emit (CheckedIn (msg_sender e) DAILY_FREE_TURNS (block_timestamp e)).

Definition buyTurns (e : Env) (turnCount : Z) : M unit :=
  s0 <- get ;; modify (set_balance (balance s0 + msg_value e)) ;;;
  require (0 <? turnCount) "Must buy at least 1 turn" ;;;
  price <- checked_mul turnCount TURN_PRICE ;;
  require (msg_value e =? price) "Incorrect payment amount" ;;;
  player <- load_player (msg_sender e) ;;
  (if lastCheckInTime player =? 0
   then s <- get ;; modify (set_playerAddresses (playerAddresses s ++ [msg_sender e])) ;;;
        store_player (msg_sender e) (with_lastCheckInTime 1 player)
   else ret tt) ;;;
  player' <- load_player (msg_sender e) ;;
  turns <- checked_add (availableTurns player') turnCount ;;
  store_player (msg_sender e) (with_availableTurns turns player') ;;;
  emit (TurnsPurchased (msg_sender e) turnCount (msg_value e)).

Definition dropBall (e : Env) (encryptedScore : Z) (inputProof : list Byte.byte) : M unit :=
  nonpayable e ;;;
  player <- load_player (msg_sender e) ;;
  require (0 <? availableTurns player) "No turns available" ;;;
  score <- fhe_fromExternal encryptedScore inputProof ;;
  let player1 := with_totalScore (fhe_add (totalScore player) score) player in
  turns <- checked_sub (availableTurns player1) 1 ;;
  games <- checked_add (gamesPlayed player1) 1 ;;
  store_player (msg_sender e) (with_gamesPlayed games (with_availableTurns turns player1)) ;;;
  emit (GamePlayed (msg_sender e) turns) ;;;
  emit (ScoreUpdated (msg_sender e) games).

Definition playTurn (e : Env) : M unit :=
  nonpayable e ;;;
  player <- load_player (msg_sender e) ;;
  require (0 <? availableTurns player) "No turns available" ;;;
  turns <- checked_sub (availableTurns player) 1 ;;
  games <- checked_add (gamesPlayed player) 1 ;;
  store_player (msg_sender e) (with_gamesPlayed games (with_availableTurns turns player)) ;;;
  emit (GamePlayed (msg_sender e) turns) ;;;
  emit (ScoreUpdated (msg_sender e) games).

Definition onlyOwner (e : Env) : M unit :=
  s <- get ;; require (msg_sender e =? owner s) "Only owner can call this function".

Definition withdraw (e : Env) : M unit :=
  nonpayable e ;;;
  onlyOwner e ;;;
  s <- get ;;
  let bal := balance s in
  require (0 <? bal) "No balance to withdraw" ;;;
  modify (set_balance (balance s - bal)) ;;;     (* payable(owner).transfer(balance) *)
  s' <- get ;;
  emit (Withdrawal (owner s') bal).

Definition transferOwnership (e : Env) (newOwner : address) : M unit :=
  nonpayable e ;;;
  onlyOwner e ;;;
  require (negb (newOwner =? 0)) "Invalid new owner address" ;;;
  modify (set_owner newOwner).

Definition dispatch (e : Env) (c : Call) : M unit :=
  match c with
  | DailyCheckIn => dailyCheckIn e
  | BuyTurns n => buyTurns e n
  | DropBall enc proof => dropBall e enc proof
  | PlayTurn => playTurn e
  | Withdraw => withdraw e
  | TransferOwnership o => transferOwnership e o
  end.

(** A transaction: commit on success, roll back everything on revert.
    The boolean reports whether the call succeeded. *)
Definition exec (e : Env) (c : Call) (s : State) : State * bool :=
  match dispatch e c s with
  | Ok _ s' => (s', true)
  | Revert _ => (s, false)
  end.

Fixpoint run (s : State) (txs : list (Env * Call)) : State :=
  match txs with
  | [] => s
  | (e, c) :: rest => run (fst (exec e c s)) rest
  end.

Inductive reachable : State -> Prop :=
| reach_init (deployer : address) : reachable (init deployer)
| reach_step (s : State) (e : Env) (c : Call) :
    reachable s -> wf_env e -> wf_call c -> reachable (fst (exec e c s)).

End Contract.

(** ** Read-only queries *)

Definition getPlayerInfo (s : State) (a : address) : Z * Z * Z :=
  let p := players s a in (lastCheckInTime p, availableTurns p, gamesPlayed p).

Definition getTotalPlayers (s : State) : Z := Z.of_nat (length (playerAddresses s)).

(** [getPlayerScore] hands out the ciphertext handle of [totalScore];
    it is modelled by its plaintext. *)
Definition getPlayerScore (s : State) (a : address) : Z := totalScore (players s a).

(** [getBalance]: [address(this).balance]. *)
Definition getBalance (s : State) : Z := balance s.

(** A view call reverts on overflow too: [None] is a revert. *)
Definition canCheckIn (s : State) (now : Z) (a : address) : option bool :=
  let due := lastCheckInTime (players s a) + SECONDS_PER_DAY in
  if due <=? UINT256_MAX then Some (due <=? now) else None.

(** ** The leaderboard query *)

Record LeaderboardEntry := mkEntry {
  playerAddress : address;
  entryGamesPlayed : Z
}.

Global Instance LeaderboardEntry_inhabited : Inhabited LeaderboardEntry :=
  populate (mkEntry 0 0).

(** [temp = lb[i]; lb[i] = lb[j]; lb[j] = temp] *)
Definition swap_entries (i j : nat) (lb : list LeaderboardEntry) : list LeaderboardEntry :=
  let temp := lb !!! i in
  <[j := temp]> (<[i := lb !!! j]> lb).

(** Body of the inner loop at indices [i], [j]. *)
Definition sort_step (i j : nat) (lb : list LeaderboardEntry) : list LeaderboardEntry :=
  if entryGamesPlayed (lb !!! i) <? entryGamesPlayed (lb !!! j)
  then swap_entries i j lb else lb.

(** [for (j = i + 1; j < playerCount; j++)], run for [fuel] iterations from [j]. *)
Fixpoint inner_loop (i j : nat) (fuel : nat) (lb : list LeaderboardEntry)
  : list LeaderboardEntry :=
  match fuel with
  | O => lb
  | S f => inner_loop i (S j) f (sort_step i j lb)
  end.

(** [for (i = 0; i < playerCount; i++)], run for [fuel] iterations from [i]. *)
Fixpoint outer_loop (playerCount i : nat) (fuel : nat) (lb : list LeaderboardEntry)
  : list LeaderboardEntry :=
  match fuel with
  | O => lb
  | S f => outer_loop playerCount (S i) f
             (inner_loop i (S i) (playerCount - S i) lb)
  end.

Definition leaderboard_entries (s : State) : list LeaderboardEntry :=
  map (fun a => mkEntry a (gamesPlayed (players s a))) (playerAddresses s).

Definition getLeaderboard (s : State) : list LeaderboardEntry :=
  let playerCount := length (playerAddresses s) in
  outer_loop playerCount 0 playerCount (leaderboard_entries s).

(** ** Small executions *)

Definition valid_proof (enc : Z) (_ : list Byte.byte) : option Z := Some enc.

Definition tx (a v t : Z) (c : Call) : Env * Call := (mkEnv a v t, c).

Example ex_checkin_play :
  getPlayerInfo (run valid_proof (init 9)
     [tx 1 0 100000 DailyCheckIn; tx 1 0 100001 PlayTurn; tx 1 0 100002 PlayTurn;
      tx 1 0 100003 PlayTurn; tx 1 0 100004 PlayTurn]) 1 = (100000, 0, 3).
Proof. vm_compute. reflexivity. Qed.

Example ex_buy :
  let s := run valid_proof (init 9) [tx 2 (5 * TURN_PRICE) 7 (BuyTurns 5); tx 2 1 8 (BuyTurns 5)] in
  getPlayerInfo s 2 = (1, 5, 0) /\ playerAddresses s = [2] /\ balance s = 5 * TURN_PRICE.
Proof. vm_compute. auto. Qed.

(** ** Outcome of each entry point

    Each entry point commits a fixed post-state when a boolean guard
    holds, and reverts otherwise. The guards collect every [require] and
    every checked-arithmetic overflow of the function body. *)

Definition register_if_new (a : address) (p : Player) (s : State) : State :=
  if lastCheckInTime p =? 0
  then set_playerAddresses (playerAddresses s ++ [a]) s else s.

Definition checkin_ok (e : Env) (s : State) : bool :=
  let p := players s (msg_sender e) in
  (msg_value e =? 0)
  && (lastCheckInTime p + SECONDS_PER_DAY <=? UINT256_MAX)
  && (lastCheckInTime p + SECONDS_PER_DAY <=? block_timestamp e)
  && (availableTurns p + DAILY_FREE_TURNS <=? UINT256_MAX).

Definition checkin_post (e : Env) (s : State) : State :=
  let a := msg_sender e in
  let p := players s a in
  push_log (CheckedIn a DAILY_FREE_TURNS (block_timestamp e))
    (set_player a (with_lastCheckInTime (block_timestamp e)
                    (with_availableTurns (availableTurns p + DAILY_FREE_TURNS) p))
       (register_if_new a p s)).

Definition buy_ok (e : Env) (n : Z) (s : State) : bool :=
  let p := players s (msg_sender e) in
  (0 <? n) && (n * TURN_PRICE <=? UINT256_MAX) && (msg_value e =? n * TURN_PRICE)
  && (availableTurns p + n <=? UINT256_MAX).

Definition buy_post (e : Env) (n : Z) (s : State) : State :=
  let a := msg_sender e in
  let p := players s a in
  let s1 := set_balance (balance s + msg_value e) s in
  let p' := if lastCheckInTime p =? 0 then with_lastCheckInTime 1 p else p in
  let s2 := if lastCheckInTime p =? 0
            then set_player a p' (set_playerAddresses (playerAddresses s1 ++ [a]) s1)
            else s1 in
  push_log (TurnsPurchased a n (msg_value e))
    (set_player a (with_availableTurns (availableTurns p + n) p') s2).

Definition play_ok (e : Env) (s : State) : bool :=
  let p := players s (msg_sender e) in
  (msg_value e =? 0) && (0 <? availableTurns p) && (gamesPlayed p + 1 <=? UINT256_MAX).

Definition play_post (e : Env) (p : Player) (s : State) : State :=
  let a := msg_sender e in
  push_log (ScoreUpdated a (gamesPlayed p + 1))
    (push_log (GamePlayed a (availableTurns p - 1))
       (set_player a (with_gamesPlayed (gamesPlayed p + 1)
                       (with_availableTurns (availableTurns p - 1) p)) s)).

Definition withdraw_ok (e : Env) (s : State) : bool :=
  (msg_value e =? 0) && (msg_sender e =? owner s) && (0 <? balance s).

Definition withdraw_post (s : State) : State :=
  push_log (Withdrawal (owner s) (balance s)) (set_balance (balance s - balance s) s).

Definition transfer_ok (e : Env) (o : address) (s : State) : bool :=
  (msg_value e =? 0) && (msg_sender e =? owner s) && negb (o =? 0).

Ltac unfold_tx :=
  unfold exec, dispatch, dailyCheckIn, buyTurns, playTurn, dropBall, withdraw,
    transferOwnership, nonpayable, onlyOwner, fhe_fromExternal, load_player,
    store_player, emit, require, checked_add, checked_sub, checked_mul,
    bind, ret, revert, get, modify.

Ltac split_guards :=
  repeat match goal with
  | |- context [if ?b then _ else _] =>
      lazymatch b with
      | context [if _ then _ else _] => fail
      | _ => destruct b eqn:?
      end
  | |- context [match ?o with Some _ => _ | None => _ end] =>
      destruct o eqn:?
  end; simpl in *.

Lemma exec_dailyCheckIn fx e s :
  exec fx e DailyCheckIn s =
  if checkin_ok e s then (checkin_post e s, true) else (s, false).
Proof.
  unfold checkin_ok, checkin_post, register_if_new. unfold_tx. simpl.
  split_guards; rewrite ?andb_true_r, ?andb_false_r in *; try reflexivity;
    try congruence; lia.
Qed.

Lemma exec_buyTurns fx e n s :
  exec fx e (BuyTurns n) s =
  if buy_ok e n s then (buy_post e n s, true) else (s, false).
Proof.
  unfold buy_ok, buy_post. unfold_tx. simpl.
  split_guards; rewrite ?Z.eqb_refl in *; simpl in *;
    rewrite ?andb_true_r, ?andb_false_r in *; try reflexivity; try congruence;
    try lia.
Qed.

Lemma exec_playTurn fx e s :
  exec fx e PlayTurn s =
  if play_ok e s then (play_post e (players s (msg_sender e)) s, true) else (s, false).
Proof.
  unfold play_ok, play_post. unfold_tx. simpl.
  split_guards; rewrite ?andb_true_r, ?andb_false_r in *; try reflexivity;
    try congruence; lia.
Qed.

Lemma exec_dropBall fx e enc pf s :
  exec fx e (DropBall enc pf) s =
  if play_ok e s then
    match fx enc pf with
    | Some sc =>
        (play_post e (with_totalScore (fhe_add (totalScore (players s (msg_sender e))) sc)
                        (players s (msg_sender e))) s, true)
    | None => (s, false)
    end
  else (s, false).
Proof.
  unfold play_ok, play_post. unfold_tx. simpl.
  split_guards; rewrite ?andb_true_r, ?andb_false_r in *; try reflexivity;
    try congruence; lia.
Qed.

Lemma exec_withdraw fx e s :
  exec fx e Withdraw s =
  if withdraw_ok e s then (withdraw_post s, true) else (s, false).
Proof.
  unfold withdraw_ok, withdraw_post. unfold_tx. simpl.
  split_guards; rewrite ?andb_true_r, ?andb_false_r in *; try reflexivity;
    try congruence; lia.
Qed.

Lemma exec_transferOwnership fx e o s :
  exec fx e (TransferOwnership o) s =
  if transfer_ok e o s then (set_owner o s, true) else (s, false).
Proof.
  unfold transfer_ok. unfold_tx. simpl.
  split_guards; rewrite ?andb_true_r, ?andb_false_r in *; try reflexivity;
    try congruence; lia.
Qed.

(** ** The reachable-state invariant *)

(** Timestamps of the [CheckedIn] events of [a], oldest first. *)
Fixpoint checkin_times (a : address) (log : list Event) : list Z :=
  match log with
  | [] => []
  | CheckedIn p _ t :: rest => if p =? a then t :: checkin_times a rest else checkin_times a rest
  | _ :: rest => checkin_times a rest
  end.

Definition cooldown_gap (t1 t2 : Z) : Prop := t1 + SECONDS_PER_DAY <= t2.

Definition in_range (x : Z) : Prop := 0 <= x <= UINT256_MAX.

Record ledger_inv (s : State) : Prop := {
  inv_nodup : NoDup (playerAddresses s);
  inv_registered : forall a, a ∈ playerAddresses s <-> lastCheckInTime (players s a) <> 0;
  inv_fresh : forall a, lastCheckInTime (players s a) = 0 ->
      availableTurns (players s a) = 0 /\ gamesPlayed (players s a) = 0;
  inv_range : forall a, in_range (lastCheckInTime (players s a)) /\
      in_range (availableTurns (players s a)) /\ in_range (gamesPlayed (players s a));
  inv_checkins : forall a, Sorted cooldown_gap (checkin_times a (logs s));
  inv_last : forall a t, last (checkin_times a (logs s)) = Some t ->
      lastCheckInTime (players s a) = t /\ SECONDS_PER_DAY <= t
}.

(** ** Event-log accounting *)

Fixpoint log_sum (w : Event -> Z) (log : list Event) : Z :=
  match log with
  | [] => 0
  | ev :: rest => w ev + log_sum w rest
  end.

(** Turns credited to [a] by an event: check-in grants and purchases. *)
Definition turns_credited (a : address) (ev : Event) : Z :=
  match ev with
  | CheckedIn p g _ => if p =? a then g else 0
  | TurnsPurchased p n _ => if p =? a then n else 0
  | _ => 0
  end.

Definition games_logged (a : address) (ev : Event) : Z :=
  match ev with
  | GamePlayed p _ => if p =? a then 1 else 0
  | _ => 0
  end.

Definition turns_sold (ev : Event) : Z :=
  match ev with TurnsPurchased _ n _ => n | _ => 0 end.

Definition amount_withdrawn (ev : Event) : Z :=
  match ev with Withdrawal _ v => v | _ => 0 end.

Definition purchase_event_ok (ev : Event) : Prop :=
  match ev with
  | TurnsPurchased _ n v => 0 < n /\ v = n * TURN_PRICE
  | _ => True
  end.

Record acct_inv (s : State) : Prop := {
  acc_turns : forall a, availableTurns (players s a) + gamesPlayed (players s a) =
                        log_sum (turns_credited a) (logs s);
  acc_games : forall a, gamesPlayed (players s a) = log_sum (games_logged a) (logs s);
  acc_balance : balance s =
      TURN_PRICE * log_sum turns_sold (logs s) - log_sum amount_withdrawn (logs s);
  acc_events : Forall purchase_event_ok (logs s);
  acc_sentinel : forall a, checkin_times a (logs s) = [] ->
      lastCheckInTime (players s a) = 0 \/ lastCheckInTime (players s a) = 1
}.

Lemma checkin_times_app a l1 l2 :
  checkin_times a (l1 ++ l2) = checkin_times a l1 ++ checkin_times a l2.
Proof.
  induction l1 as [|ev l1 IH]; simpl; [done|].
  destruct ev; rewrite ?IH; try done. by destruct (player =? a).
Qed.

Lemma Sorted_snoc {A} (R : A -> A -> Prop) l x :
  Sorted R l -> (forall y, last l = Some y -> R y x) -> Sorted R (l ++ [x]).
Proof.
  induction 1 as [|y l Hl IH Hhd]; intros Hlast; simpl.
  - by repeat constructor.
  - constructor.
    + apply IH. intros z Hz. apply Hlast. destruct l; [done|]. by rewrite last_cons, Hz.
    + destruct Hhd as [|z l' Hz]; simpl.
      * constructor. apply Hlast. done.
      * by constructor.
Qed.

Lemma last_snoc_Some {A} (l : list A) x : last (l ++ [x]) = Some x.
Proof. by rewrite last_app. Qed.

Lemma init_inv o : ledger_inv (init o).
Proof.
  split; simpl.
  - constructor.
  - intros a. split; [intros Ha; inversion Ha | done].
  - done.
  - intros a. unfold in_range, UINT256_MAX. lia.
  - intros a. constructor.
  - done.
Qed.

Lemma set_player_lookup a p s b :
  players (set_player a p s) b = if b =? a then p else players s b.
Proof. reflexivity. Qed.

Lemma elem_of_snoc (a b : address) (l : list address) :
  b ∈ l ++ [a] <-> b ∈ l \/ b = a.
Proof. rewrite elem_of_app, list_elem_of_singleton. tauto. Qed.

Ltac guard_facts :=
  repeat match goal with
  | H : (_ && _) = true |- _ => apply andb_prop in H as [? ?]
  | H : negb _ = true |- _ => apply negb_true_iff in H
  | H : (_ =? _) = true |- _ => apply Z.eqb_eq in H
  | H : (_ =? _) = false |- _ => apply Z.eqb_neq in H
  | H : (_ <=? _) = true |- _ => apply Z.leb_le in H
  | H : (_ <=? _) = false |- _ => apply Z.leb_gt in H
  | H : (_ <? _) = true |- _ => apply Z.ltb_lt in H
  | H : (_ <? _) = false |- _ => apply Z.ltb_ge in H
  end.

Ltac wf_trace :=
  repeat (apply List.Forall_cons;
          [split; [unfold wf_env, UINT256_MAX; simpl; lia|simpl; try exact I; unfold UINT256_MAX; lia]|]);
  apply List.Forall_nil.

Ltac case_addr b a :=
  let E := fresh "E" in
  destruct (Z.eqb_spec b a) as [E|E]; [subst b|].

Lemma checkin_times_snoc_other (b : address) (ev : Event) :
  (forall x y, ev <> CheckedIn b x y) ->
  checkin_times b [ev] = [].
Proof.
  intros Hev. destruct ev; simpl; try done.
  destruct (Z.eqb_spec player b); [subst; by destruct (Hev turnsGranted timestamp)|done].
Qed.

Lemma register_if_new_players a p s :
  players (register_if_new a p s) = players s.
Proof. unfold register_if_new. by destruct (_ =? _). Qed.

Lemma register_if_new_logs a p s :
  logs (register_if_new a p s) = logs s.
Proof. unfold register_if_new. by destruct (_ =? _). Qed.

Lemma checkin_times_CheckedIn (a b : address) (g t : Z) :
  checkin_times b [CheckedIn a g t] = if a =? b then [t] else [].
Proof. simpl. by destruct (a =? b). Qed.

Lemma checkin_inv e s :
  wf_env e -> ledger_inv s -> checkin_ok e s = true -> ledger_inv (checkin_post e s).
Proof.
  intros [Hv Ht] [Hnd Hreg Hfresh Hrange Hck Hlast] Hok.
  unfold checkin_ok in Hok. guard_facts. unfold checkin_post. cbv zeta.
  set (a := msg_sender e) in *. set (p := players s a) in *.
  assert (Hp := Hrange a). fold p in Hp. unfold in_range, SECONDS_PER_DAY, DAILY_FREE_TURNS in *.
  assert (Hnew : lastCheckInTime p = 0 -> a ∉ playerAddresses s).
  { intros Hz Hin. apply (Hreg a) in Hin. done. }
  assert (Hreg' : forall b, b ∈ playerAddresses (register_if_new a p s) <->
            b ∈ playerAddresses s \/ b = a /\ lastCheckInTime p = 0).
  { intros b. unfold register_if_new.
    destruct (Z.eqb_spec (lastCheckInTime p) 0) as [Hz|Hz]; simpl.
    - rewrite elem_of_snoc. split; [intros [?|?]; auto | intros [?|[? ?]]; auto].
    - split; [auto | intros [?|[? ?]]; [auto | contradiction]]. }
  split; simpl; rewrite ?register_if_new_players, ?register_if_new_logs.
  - unfold register_if_new. destruct (Z.eqb_spec (lastCheckInTime p) 0); simpl; [|done].
    apply NoDup_app. split; [done|]. split; [|apply NoDup_singleton].
    intros x Hx ->%list_elem_of_singleton. by apply Hnew.
  - intros b. rewrite Hreg'. case_addr b a; rewrite ?Z.eqb_refl.
    + simpl. split; [lia|].
      intros _. destruct (Z.eq_dec (lastCheckInTime p) 0); [by right|left].
      by apply Hreg.
    + simpl; rewrite ?(proj2 (Z.eqb_neq b a) E), <- Hreg. naive_solver.
  - intros b. case_addr b a; rewrite ?Z.eqb_refl.
    + simpl. lia.
    + simpl; rewrite ?(proj2 (Z.eqb_neq b a) E). apply Hfresh.
  - intros b. case_addr b a; rewrite ?Z.eqb_refl.
    + simpl. unfold in_range, UINT256_MAX in *. lia.
    + simpl; rewrite ?(proj2 (Z.eqb_neq b a) E). apply Hrange.
  - intros b. rewrite checkin_times_app, checkin_times_CheckedIn.
    case_addr b a; rewrite ?Z.eqb_refl.
    + apply Sorted_snoc; [apply Hck|]. intros y Hy. apply Hlast in Hy as [Hy1 Hy2].
      unfold cooldown_gap, SECONDS_PER_DAY. fold p in Hy1. lia.
    + rewrite (proj2 (Z.eqb_neq a b) (not_eq_sym E)), app_nil_r. apply Hck.
  - intros b t. rewrite checkin_times_app, checkin_times_CheckedIn.
    case_addr b a; rewrite ?Z.eqb_refl.
    + rewrite last_snoc_Some. intros [= <-]. simpl. unfold SECONDS_PER_DAY. lia.
    + rewrite (proj2 (Z.eqb_neq a b) (not_eq_sym E)), app_nil_r.
      apply Hlast.
Qed.

Lemma buy_inv e n s :
  wf_env e -> wf_call (BuyTurns n) -> ledger_inv s -> buy_ok e n s = true ->
  ledger_inv (buy_post e n s).
Proof.
  intros [Hv Ht] Hn [Hnd Hreg Hfresh Hrange Hck Hlast] Hok. simpl in Hn.
  unfold buy_ok in Hok. guard_facts. unfold buy_post. cbv zeta.
  set (a := msg_sender e) in *. set (p := players s a) in *.
  assert (Hp := Hrange a). fold p in Hp. unfold in_range in *.
  destruct (Z.eqb_spec (lastCheckInTime p) 0) as [Hz|Hz].
  - assert (Hnew : a ∉ playerAddresses s) by (intros Hin; by apply (Hreg a) in Hin).
    split; simpl.
    + apply NoDup_app. split; [done|]. split; [|apply NoDup_singleton].
      intros x Hx ->%list_elem_of_singleton. done.
    + intros b. rewrite elem_of_snoc. case_addr b a; simpl.
      * split; [lia|auto].
      * rewrite Hreg. naive_solver.
    + intros b. case_addr b a; simpl; [lia|apply Hfresh].
    + intros b. case_addr b a; simpl; [unfold in_range, UINT256_MAX in *; lia|apply Hrange].
    + intros b. rewrite checkin_times_app, app_nil_r. apply Hck.
    + intros b t. rewrite checkin_times_app, app_nil_r. intros Hb.
      case_addr b a; simpl; [|by apply Hlast].
      apply Hlast in Hb as [Hb1 Hb2]. fold p in Hb1. unfold SECONDS_PER_DAY in *. lia.
  - split; simpl.
    + done.
    + intros b. case_addr b a; simpl; [|apply Hreg]. rewrite Hreg. done.
    + intros b. case_addr b a; simpl; [done|apply Hfresh].
    + intros b. case_addr b a; simpl; [unfold in_range, UINT256_MAX in *; lia|apply Hrange].
    + intros b. rewrite checkin_times_app, app_nil_r. apply Hck.
    + intros b t. rewrite checkin_times_app, app_nil_r. intros Hb.
      case_addr b a; simpl; by apply Hlast.
Qed.

Lemma play_inv e p0 s :
  ledger_inv s -> play_ok e s = true ->
  lastCheckInTime p0 = lastCheckInTime (players s (msg_sender e)) ->
  availableTurns p0 = availableTurns (players s (msg_sender e)) ->
  gamesPlayed p0 = gamesPlayed (players s (msg_sender e)) ->
  ledger_inv (play_post e p0 s).
Proof.
  intros [Hnd Hreg Hfresh Hrange Hck Hlast] Hok Hl Ht Hg.
  unfold play_ok in Hok. guard_facts. unfold play_post. cbv zeta.
  set (a := msg_sender e) in *. set (p := players s a) in *.
  assert (Hp := Hrange a). fold p in Hp. unfold in_range in *.
  assert (Hnz : lastCheckInTime p <> 0).
  { intros Hz. apply Hfresh in Hz as [Hz1 _]. fold p in Hz1. lia. }
  split; simpl.
  - done.
  - intros b. case_addr b a; simpl; [rewrite Hl, Hreg; done|apply Hreg].
  - intros b. case_addr b a; simpl; [rewrite Hl; done|apply Hfresh].
  - intros b. case_addr b a; simpl; [unfold in_range, UINT256_MAX in *; lia|apply Hrange].
  - intros b. rewrite !checkin_times_app, !app_nil_r. apply Hck.
  - intros b t. rewrite !checkin_times_app, !app_nil_r. intros Hb.
    case_addr b a; simpl; [rewrite Hl|]; by apply Hlast.
Qed.

Lemma withdraw_inv s : ledger_inv s -> ledger_inv (withdraw_post s).
Proof.
  intros [Hnd Hreg Hfresh Hrange Hck Hlast]. unfold withdraw_post.
  split; simpl; try done.
  - intros b. rewrite checkin_times_app, app_nil_r. apply Hck.
  - intros b t. rewrite checkin_times_app, app_nil_r. apply Hlast.
Qed.

Lemma transfer_inv o s : ledger_inv s -> ledger_inv (set_owner o s).
Proof. intros [Hnd Hreg Hfresh Hrange Hck Hlast]. by split. Qed.

Lemma exec_inv fx e c s :
  wf_env e -> wf_call c -> ledger_inv s -> ledger_inv (fst (exec fx e c s)).
Proof.
  intros He Hc Hs. destruct c.
  - rewrite exec_dailyCheckIn. destruct (checkin_ok e s) eqn:Hok; [|done].
    by apply checkin_inv.
  - rewrite exec_buyTurns. destruct (buy_ok e turnCount s) eqn:Hok; [|done].
    by apply buy_inv.
  - rewrite exec_dropBall. destruct (play_ok e s) eqn:Hok; [|done].
    destruct (fx encryptedScore inputProof); [|done]. by apply play_inv.
  - rewrite exec_playTurn. destruct (play_ok e s) eqn:Hok; [|done].
    by apply play_inv.
  - rewrite exec_withdraw. destruct (withdraw_ok e s); [|done]. by apply withdraw_inv.
  - rewrite exec_transferOwnership. destruct (transfer_ok e newOwner s); [|done].
    by apply transfer_inv.
Qed.

Lemma reachable_inv fx s : reachable fx s -> ledger_inv s.
Proof.
  induction 1; [apply init_inv|]. by apply exec_inv.
Qed.

(** ** The exchange sort of [getLeaderboard] *)

Definition games_desc (x y : LeaderboardEntry) : Prop :=
  entryGamesPlayed y <= entryGamesPlayed x.

Lemma swap_entries_middle (pre mid rest : list LeaderboardEntry) c x :
  swap_entries (length pre) (length pre + S (length mid)) (pre ++ c :: mid ++ x :: rest)
  = pre ++ x :: mid ++ c :: rest.
Proof.
  unfold swap_entries.
  assert (Hsplit : forall y z : LeaderboardEntry,
             pre ++ y :: mid ++ z :: rest = (pre ++ y :: mid) ++ z :: rest)
    by (intros; by rewrite <- app_assoc).
  assert (Hlen : forall y : LeaderboardEntry,
             length (pre ++ y :: mid) = (length pre + S (length mid))%nat)
    by (intros; rewrite length_app; simpl; lia).
  rewrite list_lookup_total_middle by done.
  rewrite Hsplit, list_lookup_total_middle by (by rewrite Hlen).
  rewrite <- Hsplit, insert_app_r_alt by lia. rewrite Nat.sub_diag. simpl.
  rewrite Hsplit, insert_app_r_alt by (rewrite Hlen; lia).
  rewrite Hlen, Nat.sub_diag. simpl. by rewrite <- app_assoc.
Qed.

Lemma inner_loop_spec (pre mid rest : list LeaderboardEntry) c i j :
  i = length pre -> j = S (length pre + length mid) ->
  Forall (fun y => games_desc c y) mid ->
  exists c' mid',
    inner_loop i j (length rest) (pre ++ c :: mid ++ rest) = pre ++ c' :: mid' /\
    c' :: mid' ≡ₚ c :: mid ++ rest /\
    Forall (fun y => games_desc c' y) mid'.
Proof.
  revert c mid j. induction rest as [|x rest IH]; intros c mid j -> -> Hmid.
  - exists c, mid. simpl. rewrite !app_nil_r. done.
  - simpl. unfold sort_step.
    assert (Hx : (pre ++ c :: mid ++ x :: rest) !!! S (length pre + length mid) = x).
    { change (c :: mid ++ x :: rest) with ((c :: mid) ++ x :: rest).
      rewrite app_assoc. apply list_lookup_total_middle. rewrite !length_app. simpl. lia. }
    rewrite list_lookup_total_middle by done. rewrite Hx.
    destruct (Z.ltb_spec (entryGamesPlayed c) (entryGamesPlayed x)) as [Hlt|Hge].
    + replace (S (length pre + length mid)) with (length pre + S (length mid))%nat by lia.
      rewrite swap_entries_middle.
      replace (pre ++ x :: mid ++ c :: rest) with (pre ++ x :: (mid ++ [c]) ++ rest)
        by (by rewrite <- app_assoc).
      destruct (IH x (mid ++ [c]) (S (length pre + S (length mid))))
        as (c' & mid' & Hrun & Hperm & Hall); [done| rewrite length_app; simpl; lia | |].
      { apply Forall_app. split; [|constructor; [unfold games_desc; lia|done]].
        eapply Forall_impl; [exact Hmid|]. unfold games_desc. intros y Hy. lia. }
      exists c', mid'. split; [exact Hrun|]. split; [|done].
      rewrite Hperm. rewrite <- app_assoc. simpl.
      rewrite (Permutation_app_comm mid (c :: rest)), (Permutation_app_comm mid (x :: rest)).
      simpl. by rewrite perm_swap.
    + replace (pre ++ c :: mid ++ x :: rest) with (pre ++ c :: (mid ++ [x]) ++ rest)
        by (by rewrite <- app_assoc).
      destruct (IH c (mid ++ [x]) (S (S (length pre + length mid))))
        as (c' & mid' & Hrun & Hperm & Hall); [done| rewrite length_app; simpl; lia | |].
      { apply Forall_app. split; [done|constructor; [unfold games_desc; lia|done]]. }
      exists c', mid'. split; [exact Hrun|]. split; [|done].
      rewrite Hperm. by rewrite <- app_assoc.
Qed.

Lemma outer_loop_spec (n : nat) (pre suf : list LeaderboardEntry) :
  n = (length pre + length suf)%nat ->
  StronglySorted games_desc pre ->
  (forall x y, x ∈ pre -> y ∈ suf -> games_desc x y) ->
  exists suf',
    outer_loop n (length pre) (length suf) (pre ++ suf) = pre ++ suf' /\
    suf' ≡ₚ suf /\ StronglySorted games_desc (pre ++ suf').
Proof.
  remember (length suf) as k eqn:Hk. revert pre suf Hk.
  induction k as [|k IH]; intros pre suf Hk Hn Hsorted Hbound.
  - destruct suf; [|done]. exists []. rewrite app_nil_r. done.
  - destruct suf as [|c rest]; [done|]. simpl in Hk. injection Hk as Hk.
    simpl.
    destruct (inner_loop_spec pre [] rest c (length pre) (S (length pre)))
      as (c' & mid' & Hrun & Hperm & Hall); [done|simpl; lia|constructor|].
    replace (n - S (length pre))%nat with (length rest) by lia.
    simpl in Hrun. rewrite Hrun.
    assert (Hlen : length mid' = k).
    { apply Permutation_length in Hperm. simpl in Hperm. lia. }
    destruct (IH (pre ++ [c']) mid') as (suf' & Hrun' & Hperm' & Hsorted');
      [done|rewrite length_app; simpl; lia| | |].
    + apply StronglySorted_app_2; [|done|by repeat constructor].
      intros x1 x2 Hx1 ->%list_elem_of_singleton. apply Hbound; [done|].
      rewrite <- Hperm. left.
    + intros x y Hx Hy. apply elem_of_app in Hx as [Hx| ->%list_elem_of_singleton].
      * apply Hbound; [done|]. rewrite <- Hperm. by right.
      * rewrite Forall_forall in Hall. by apply Hall.
    + exists (c' :: suf'). rewrite length_app, <- !app_assoc in Hrun'. simpl in Hrun'.
      replace (S (length pre)) with (length pre + 1)%nat by lia.
      rewrite ?Hlen in Hrun'. rewrite Hrun'. split; [done|]. split.
      * by rewrite Hperm', Hperm.
      * by rewrite <- app_assoc in Hsorted'.
Qed.

(** C5 (amended). [getLeaderboard] returns exactly the registry's
    [(address, gamesPlayed)] pairs, as a permutation, sorted by
    [gamesPlayed] in non-increasing order; the order among equal
    [gamesPlayed] values is left to the exchange sort. *)
Theorem leaderboard_sorted_permutation (s : State) :
  getLeaderboard s ≡ₚ leaderboard_entries s /\
  StronglySorted games_desc (getLeaderboard s).
Proof.
  unfold getLeaderboard.
  destruct (outer_loop_spec (length (playerAddresses s)) [] (leaderboard_entries s))
    as (suf' & Hrun & Hperm & Hsorted).
  - unfold leaderboard_entries. by rewrite length_map.
  - constructor.
  - intros x y Hx. inversion Hx.
  - assert (Hl : length (leaderboard_entries s) = length (playerAddresses s))
      by (unfold leaderboard_entries; by rewrite length_map).
    simpl in Hrun. rewrite Hl in Hrun. rewrite Hrun. done.
Qed.

(** ** Frame: a transaction only touches its sender's record *)

Lemma exec_other_player fx e c s a :
  msg_sender e <> a -> players (fst (exec fx e c s)) a = players s a.
Proof.
  intros Hne. assert (Hb : (a =? msg_sender e) = false) by (apply Z.eqb_neq; auto).
  destruct c.
  - rewrite exec_dailyCheckIn. destruct (checkin_ok e s); [|done].
    unfold checkin_post. simpl. by rewrite Hb, register_if_new_players.
  - rewrite exec_buyTurns. destruct (buy_ok e turnCount s); [|done].
    unfold buy_post. simpl. rewrite Hb.
    by destruct (lastCheckInTime (players s (msg_sender e)) =? 0); simpl; rewrite ?Hb.
  - rewrite exec_dropBall. destruct (play_ok e s); [|done].
    destruct (fx encryptedScore inputProof); [|done]. simpl. by rewrite Hb.
  - rewrite exec_playTurn. destruct (play_ok e s); [|done]. simpl. by rewrite Hb.
  - rewrite exec_withdraw. by destruct (withdraw_ok e s).
  - rewrite exec_transferOwnership. by destruct (transfer_ok e newOwner s).
Qed.

Lemma run_other_player fx s txs a :
  Forall (fun tx : Env * Call => msg_sender (fst tx) <> a) txs ->
  players (run fx s txs) a = players s a.
Proof.
  revert s. induction txs as [|[e c] txs IH]; intros s Hall; [done|].
  inversion Hall as [|? ? He Hrest]; subst. simpl.
  rewrite IH by done. by apply exec_other_player.
Qed.

Lemma run_reachable fx s txs :
  reachable fx s ->
  Forall (fun tx : Env * Call => wf_env (fst tx) /\ wf_call (snd tx)) txs ->
  reachable fx (run fx s txs).
Proof.
  revert s. induction txs as [|[e c] txs IH]; intros s Hs Hall; [done|].
  inversion Hall as [|? ? [He Hc] Hrest]; subst. simpl.
  apply IH; [|done]. by constructor.
Qed.

Lemma players_init o a : players (init o) a = zero_player.
Proof. reflexivity. Qed.

(** Buying one turn at a time reaches every turn count of a purchase-only
    account. *)
Lemma reach_turns fx (a : address) (k : nat) :
  (Z.of_nat k + 1 <= UINT256_MAX) ->
  exists s, reachable fx s /\ lastCheckInTime (players s a) = 1 /\
            availableTurns (players s a) = Z.of_nat k + 1.
Proof.
  induction k as [|k IH]; intros Hk.
  - exists (fst (exec fx (mkEnv a TURN_PRICE 0) (BuyTurns 1) (init 0))).
    split; [apply reach_step; [constructor|unfold wf_env, UINT256_MAX, TURN_PRICE; simpl; lia|simpl; unfold UINT256_MAX; lia]|].
    rewrite exec_buyTurns.
    assert (Hok : buy_ok (mkEnv a TURN_PRICE 0) 1 (init 0) = true) by (vm_compute; reflexivity).
    rewrite Hok. cbn [fst]. unfold buy_post.
    cbn [msg_sender msg_value players set_player push_log set_balance set_playerAddresses
         init zero_player lastCheckInTime availableTurns with_availableTurns
         with_lastCheckInTime Z.eqb].
    rewrite !Z.eqb_refl. cbn [availableTurns lastCheckInTime with_availableTurns
                              with_lastCheckInTime]. lia.
  - destruct IH as (s & Hs & Hl & Ht); [lia|].
    exists (fst (exec fx (mkEnv a TURN_PRICE 0) (BuyTurns 1) s)).
    split; [apply reach_step; [done|unfold wf_env, UINT256_MAX, TURN_PRICE; simpl; lia|simpl; unfold UINT256_MAX; lia]|].
    rewrite exec_buyTurns.
    assert (Hok : buy_ok (mkEnv a TURN_PRICE 0) 1 s = true).
    { unfold buy_ok. cbn [msg_sender msg_value]. rewrite Ht.
      rewrite !andb_true_iff, Z.ltb_lt, Z.eqb_eq, !Z.leb_le.
      unfold UINT256_MAX, TURN_PRICE in *. lia. }
    rewrite Hok. cbn [fst]. unfold buy_post.
    cbn [msg_sender msg_value players set_player push_log set_balance set_playerAddresses].
    rewrite Hl, Z.eqb_refl. cbn [Z.eqb Pos.eqb availableTurns lastCheckInTime with_availableTurns].
    rewrite Ht. lia.
Qed.

Lemma checkin_ok_iff e s :
  wf_env e ->
  checkin_ok e s = true <->
  msg_value e = 0 /\
  lastCheckInTime (players s (msg_sender e)) + SECONDS_PER_DAY <= block_timestamp e /\
  availableTurns (players s (msg_sender e)) + DAILY_FREE_TURNS <= UINT256_MAX.
Proof.
  intros [Hv Ht]. unfold checkin_ok.
  rewrite !andb_true_iff, Z.eqb_eq, !Z.leb_le. lia.
Qed.

Lemma buy_ok_iff e n s :
  wf_env e ->
  buy_ok e n s = true <->
  0 < n /\ msg_value e = n * TURN_PRICE /\
  availableTurns (players s (msg_sender e)) + n <= UINT256_MAX.
Proof.
  intros [Hv Ht]. unfold buy_ok.
  rewrite !andb_true_iff, Z.eqb_eq, Z.ltb_lt, !Z.leb_le. lia.
Qed.

(** ** Claims *)

Definition is_play (c : Call) : Prop :=
  match c with PlayTurn | DropBall _ _ => True | _ => False end.

(** C1. For both play variants ([playTurn] and [dropBall]): a successful
    call requires [availableTurns > 0], decrements the caller's
    [availableTurns] by exactly 1 and increments its [gamesPlayed] by
    exactly 1; with [availableTurns = 0] the call rejects and the whole
    state is unchanged. *)
Theorem play_consumes_one_turn fx e c s s' ok :
  is_play c -> exec fx e c s = (s', ok) ->
  (ok = true ->
     0 < availableTurns (players s (msg_sender e)) /\
     availableTurns (players s' (msg_sender e)) = availableTurns (players s (msg_sender e)) - 1 /\
     gamesPlayed (players s' (msg_sender e)) = gamesPlayed (players s (msg_sender e)) + 1) /\
  (availableTurns (players s (msg_sender e)) = 0 -> ok = false /\ s' = s).
Proof.
  intros Hc Hexec.
  assert (Hzero : availableTurns (players s (msg_sender e)) = 0 -> play_ok e s = false).
  { intros H0. unfold play_ok. rewrite H0. by rewrite andb_false_r, andb_false_l. }
  destruct c; try contradiction.
  - rewrite exec_dropBall in Hexec.
    destruct (play_ok e s) eqn:Hok; [|injection Hexec as <- <-; split; [done|auto]].
    destruct (fx encryptedScore inputProof) eqn:Hfx;
      [|injection Hexec as <- <-; split; [done|intros Hz0; by rewrite Hzero in Hok]].
    injection Hexec as <- <-. unfold play_ok in Hok. guard_facts.
    split; [|intros Hz0; lia]. intros _. simpl. rewrite Z.eqb_refl. simpl. lia.
  - rewrite exec_playTurn in Hexec.
    destruct (play_ok e s) eqn:Hok; [|injection Hexec as <- <-; split; [done|auto]].
    injection Hexec as <- <-. unfold play_ok in Hok. guard_facts.
    split; [|intros Hz0; lia]. intros _. simpl. rewrite Z.eqb_refl. simpl. lia.
Qed.

Definition s_checked_in : State :=
  run valid_proof (init 9) [tx 1 0 100000 DailyCheckIn].

Lemma play_consumes_one_turn_witness :
  let r := exec valid_proof (mkEnv 1 0 100001) PlayTurn s_checked_in in
  is_play PlayTurn /\
  (snd r = true ->
     0 < availableTurns (players s_checked_in 1) /\
     availableTurns (players (fst r) 1) = availableTurns (players s_checked_in 1) - 1 /\
     gamesPlayed (players (fst r) 1) = gamesPlayed (players s_checked_in 1) + 1) /\
  (availableTurns (players s_checked_in 1) = 0 -> snd r = false /\ fst r = s_checked_in).
Proof.
  cbv zeta. split; [exact I|].
  apply (play_consumes_one_turn valid_proof (mkEnv 1 0 100001) PlayTurn s_checked_in
           (fst (exec valid_proof (mkEnv 1 0 100001) PlayTurn s_checked_in))
           (snd (exec valid_proof (mkEnv 1 0 100001) PlayTurn s_checked_in)));
    [exact I|apply surjective_pairing].
Defined.

(** C2 (counterexample). [dailyCheckIn] is non-payable: a fresh caller
    whose cooldown has elapsed is rejected when it attaches any value. *)
Lemma checkin_rejects_attached_value :
  lastCheckInTime (players (init 0) 1) + SECONDS_PER_DAY <= 86400 /\
  exec valid_proof (mkEnv 1 1 86400) DailyCheckIn (init 0) = (init 0, false).
Proof. split; [simpl; unfold SECONDS_PER_DAY; lia | reflexivity]. Qed.

(** C2 (amended). In a reachable state, [dailyCheckIn] succeeds iff no
    value is attached, [now >= lastCheckInTime + 86400] and the grant
    does not overflow [availableTurns]; on success it adds exactly 3 turns,
    sets [lastCheckInTime] to [now], and appends the caller to the
    registry exactly when it is not yet registered (its first
    interaction); on rejection the state is unchanged. *)
Theorem checkin_spec fx e s s' ok :
  reachable fx s -> wf_env e -> exec fx e DailyCheckIn s = (s', ok) ->
  (ok = true <->
     msg_value e = 0 /\
     lastCheckInTime (players s (msg_sender e)) + SECONDS_PER_DAY <= block_timestamp e /\
     availableTurns (players s (msg_sender e)) + DAILY_FREE_TURNS <= UINT256_MAX) /\
  (ok = true ->
     availableTurns (players s' (msg_sender e)) =
       availableTurns (players s (msg_sender e)) + DAILY_FREE_TURNS /\
     lastCheckInTime (players s' (msg_sender e)) = block_timestamp e /\
     playerAddresses s' =
       if bool_decide (msg_sender e ∈ playerAddresses s) then playerAddresses s
       else playerAddresses s ++ [msg_sender e]) /\
  (ok = false -> s' = s).
Proof.
  intros Hs He Hexec. apply reachable_inv in Hs as Hinv.
  rewrite exec_dailyCheckIn in Hexec. rewrite <- (checkin_ok_iff e s He).
  destruct (checkin_ok e s) eqn:Hok; injection Hexec as <- <-.
  - split; [done|]. split; [|done]. intros _. unfold checkin_post. simpl.
    rewrite Z.eqb_refl, ?register_if_new_players. simpl.
    split; [done|]. split; [done|]. unfold register_if_new.
    pose proof (inv_registered _ Hinv (msg_sender e)) as Hreg.
    destruct (Z.eqb_spec (lastCheckInTime (players s (msg_sender e))) 0) as [Hz|Hz].
    + rewrite bool_decide_false; [done|]. rewrite Hreg. auto.
    + rewrite bool_decide_true; [done|]. by rewrite Hreg.
  - split; [done|]. split; done.
Qed.

(** C3 (counterexample). With checked arithmetic, [buyTurns] reverts when
    [availableTurns + count] would exceed [2^256 - 1], even for a positive
    count paid exactly; such a balance is reachable by repeated purchases. *)
Lemma buy_rejects_at_turn_cap :
  exists s, reachable valid_proof s /\
    availableTurns (players s 1) = UINT256_MAX /\
    0 < 1 /\ TURN_PRICE = 1 * TURN_PRICE /\
    snd (exec valid_proof (mkEnv 1 TURN_PRICE 0) (BuyTurns 1) s) = false.
Proof.
  destruct (reach_turns valid_proof 1 (Z.to_nat (UINT256_MAX - 1)))
    as (s & Hs & Hl & Ht).
  { rewrite Z2Nat.id; unfold UINT256_MAX; lia. }
  rewrite Z2Nat.id in Ht by (unfold UINT256_MAX; lia).
  exists s. split; [done|]. split; [lia|]. split; [lia|]. split; [lia|].
  rewrite exec_buyTurns.
  replace (buy_ok (mkEnv 1 TURN_PRICE 0) 1 s) with false; [done|].
  symmetry. apply not_true_is_false. rewrite buy_ok_iff by (unfold wf_env, UINT256_MAX, TURN_PRICE; simpl; lia).
  cbn [msg_sender msg_value]. rewrite Ht. lia.
Qed.

(** C3 (amended). In a reachable state, [buyTurns(count)] succeeds iff
    [count > 0], the attached value is exactly [count * 10^15] wei, and
    [availableTurns + count] does not overflow; on success
    [availableTurns] grows by exactly [count]; a caller not yet in the
    registry (first interaction) is appended to it and gets
    [lastCheckInTime = 1], a registered caller keeps both; on rejection
    the state is unchanged. *)
Theorem buy_spec fx e n s s' ok :
  reachable fx s -> wf_env e -> exec fx e (BuyTurns n) s = (s', ok) ->
  (ok = true <->
     0 < n /\ msg_value e = n * TURN_PRICE /\
     availableTurns (players s (msg_sender e)) + n <= UINT256_MAX) /\
  (ok = true ->
     availableTurns (players s' (msg_sender e)) = availableTurns (players s (msg_sender e)) + n /\
     (msg_sender e ∉ playerAddresses s ->
        playerAddresses s' = playerAddresses s ++ [msg_sender e] /\
        lastCheckInTime (players s' (msg_sender e)) = 1) /\
     (msg_sender e ∈ playerAddresses s ->
        playerAddresses s' = playerAddresses s /\
        lastCheckInTime (players s' (msg_sender e)) = lastCheckInTime (players s (msg_sender e)))) /\
  (ok = false -> s' = s).
Proof.
  intros Hs He Hexec. apply reachable_inv in Hs as Hinv.
  rewrite exec_buyTurns in Hexec. rewrite <- (buy_ok_iff e n s He).
  destruct (buy_ok e n s) eqn:Hok; injection Hexec as <- <-; [|done].
  split; [done|]. split; [|done]. intros _.
  pose proof (inv_registered _ Hinv (msg_sender e)) as Hreg.
  unfold buy_post. cbv zeta.
  destruct (Z.eqb_spec (lastCheckInTime (players s (msg_sender e))) 0) as [Hz|Hz];
    simpl; rewrite !Z.eqb_refl; simpl.
  - split; [done|]. split; [done|]. intros Hin. apply Hreg in Hin. done.
  - split; [done|]. split; [|done]. intros Hnin. by rewrite Hreg in Hnin.
Qed.

(** The rejection cases listed by the error-handling design. *)
Definition rejected_call (e : Env) (c : Call) (s : State) : Prop :=
  let p := players s (msg_sender e) in
  match c with
  | DailyCheckIn => block_timestamp e < lastCheckInTime p + SECONDS_PER_DAY
  | BuyTurns n => n = 0 \/ msg_value e <> n * TURN_PRICE
  | PlayTurn | DropBall _ _ => availableTurns p = 0
  | Withdraw => msg_sender e <> owner s \/ balance s = 0
  | TransferOwnership o => msg_sender e <> owner s \/ o = 0
  end.

(** C4. Every rejected call (check-in before the cooldown, purchase with
    zero count or a mismatched payment, play without turns, withdraw by a
    non-owner or with zero balance, ownership transfer by a non-owner or
    to the zero address) leaves the whole state -- records, registry,
    owner, balance and event log -- unchanged. *)
Theorem rejected_calls_roll_back fx e c s :
  rejected_call e c s -> exec fx e c s = (s, false).
Proof.
  unfold rejected_call. destruct c; intros Hrej.
  - rewrite exec_dailyCheckIn. unfold checkin_ok.
    replace (lastCheckInTime (players s (msg_sender e)) + SECONDS_PER_DAY <=? block_timestamp e)
      with false by (symmetry; apply Z.leb_gt; lia).
    by rewrite andb_false_r, andb_false_l.
  - rewrite exec_buyTurns. unfold buy_ok.
    destruct Hrej as [->|Hne]; [done|].
    rewrite (proj2 (Z.eqb_neq _ _) Hne). by rewrite andb_false_r, andb_false_l.
  - rewrite exec_dropBall. unfold play_ok. rewrite Hrej.
    by rewrite andb_false_r, andb_false_l.
  - rewrite exec_playTurn. unfold play_ok. rewrite Hrej.
    by rewrite andb_false_r, andb_false_l.
  - rewrite exec_withdraw. unfold withdraw_ok.
    destruct Hrej as [Hne| ->].
    + by rewrite (proj2 (Z.eqb_neq _ _) Hne), andb_false_r, andb_false_l.
    + by rewrite andb_false_r.
  - rewrite exec_transferOwnership. unfold transfer_ok.
    destruct Hrej as [Hne| ->].
    + by rewrite (proj2 (Z.eqb_neq _ _) Hne), andb_false_r, andb_false_l.
    + by rewrite andb_false_r.
Qed.

Lemma rejected_calls_roll_back_witness :
  rejected_call (mkEnv 1 0 100001) PlayTurn (init 9) /\
  exec valid_proof (mkEnv 1 0 100001) PlayTurn (init 9) = (init 9, false).
Proof.
  split; [reflexivity|].
  apply rejected_calls_roll_back. reflexivity.
Defined.

Definition s_tied : State :=
  run valid_proof (init 9)
    [tx 1 0 100000 DailyCheckIn; tx 2 0 100000 DailyCheckIn; tx 3 0 100000 DailyCheckIn;
     tx 1 0 100001 PlayTurn; tx 2 0 100001 PlayTurn;
     tx 3 0 100001 PlayTurn; tx 3 0 100002 PlayTurn].

Example s_tied_leaderboard :
  playerAddresses s_tied = [1; 2; 3] /\
  getLeaderboard s_tied = [mkEntry 3 2; mkEntry 2 1; mkEntry 1 1].
Proof. vm_compute. auto. Qed.

Lemma s_tied_reachable : reachable valid_proof s_tied.
Proof.
  unfold s_tied. apply (run_reachable _ (init 9)); [apply reach_init|wf_trace].
Qed.

(** Equal [gamesPlayed] entries appear in registry insertion order. *)
Definition ties_in_registry_order (reg : list address) (lb : list LeaderboardEntry) : Prop :=
  forall (i j : nat) x y, (i < j)%nat -> lb !! i = Some x -> lb !! j = Some y ->
    entryGamesPlayed x = entryGamesPlayed y ->
    exists k1 k2 : nat, (k1 < k2)%nat /\
      reg !! k1 = Some (playerAddress x) /\ reg !! k2 = Some (playerAddress y).

(** C5 (counterexample). The exchange sort is not stable: with registry
    [1; 2; 3] and [gamesPlayed] 1, 1, 2, the leaderboard is
    [3; 2; 1], listing the tied players 2 and 1 against insertion order. *)
Lemma leaderboard_ties_reordered :
  reachable valid_proof s_tied /\
  ~ (getLeaderboard s_tied ≡ₚ leaderboard_entries s_tied /\
     StronglySorted games_desc (getLeaderboard s_tied) /\
     ties_in_registry_order (playerAddresses s_tied) (getLeaderboard s_tied)).
Proof.
  split; [apply s_tied_reachable|]. intros (_ & _ & Hties).
  destruct s_tied_leaderboard as [Hreg Hlb]. rewrite Hreg, Hlb in Hties. clear Hreg Hlb.
  destruct (Hties 1%nat 2%nat (mkEntry 2 1) (mkEntry 1 1)) as (k1 & k2 & Hk & H1 & H2);
    [lia|reflexivity|reflexivity|reflexivity|].
  simpl in H1, H2.
  destruct k1 as [|[|[|k1]]]; simpl in H1; try discriminate;
  destruct k2 as [|[|[|k2]]]; simpl in H2; try discriminate; lia.
Qed.

(** C6. In every reachable state each address occurs at most once in the
    registry [playerAddresses]. *)
Theorem registry_no_duplicates fx s :
  reachable fx s -> NoDup (playerAddresses s).
Proof. intros Hs. apply (inv_nodup _ (reachable_inv fx s Hs)). Qed.

Lemma registry_no_duplicates_witness :
  reachable valid_proof s_tied /\ NoDup (playerAddresses s_tied).
Proof.
  split; [apply s_tied_reachable|].
  apply (registry_no_duplicates valid_proof s_tied). apply s_tied_reachable.
Defined.

(** C7. In every reachable state, for every account, the timestamps of its
    successive successful check-ins (its [CheckedIn] events, in order) are
    each at least 86400 after the previous one, hence strictly
    increasing, and [lastCheckInTime] holds the latest of them. *)
Theorem checkins_spaced fx s :
  reachable fx s ->
  forall a,
    Sorted cooldown_gap (checkin_times a (logs s)) /\
    (forall t, last (checkin_times a (logs s)) = Some t -> lastCheckInTime (players s a) = t).
Proof.
  intros Hs a. pose proof (reachable_inv fx s Hs) as Hinv. split.
  - apply (inv_checkins _ Hinv).
  - intros t Ht. apply (inv_last _ Hinv a t Ht).
Qed.

Definition s_two_checkins : State :=
  run valid_proof (init 9)
    [tx 1 0 100000 DailyCheckIn; tx 1 0 150000 DailyCheckIn; tx 1 0 186400 DailyCheckIn].

Lemma checkins_spaced_witness :
  reachable valid_proof s_two_checkins /\
  checkin_times 1 (logs s_two_checkins) = [100000; 186400] /\
  Sorted cooldown_gap (checkin_times 1 (logs s_two_checkins)) /\
  (forall t, last (checkin_times 1 (logs s_two_checkins)) = Some t ->
     lastCheckInTime (players s_two_checkins 1) = t).
Proof.
  assert (Hr : reachable valid_proof s_two_checkins).
  { unfold s_two_checkins. apply (run_reachable _ (init 9)); [apply reach_init|wf_trace]. }
  split; [exact Hr|]. split; [vm_compute; reflexivity|].
  apply (checkins_spaced valid_proof s_two_checkins Hr 1).
Defined.

Definition not_sender (a : address) (tx : Env * Call) : Prop := msg_sender (fst tx) <> a.

(** C8 (counterexample). [canCheckIn] compares [now] with
    [lastCheckInTime + 86400]; for an account that never interacted this
    is [now >= 86400], false at time 0, while [getPlayerInfo] gives
    [(0, 0, 0)]. *)
Lemma fresh_account_cannot_check_in_at_time_zero :
  getPlayerInfo (init 0) 1 = (0, 0, 0) /\ canCheckIn (init 0) 0 1 = Some false.
Proof. split; reflexivity. Qed.

(** C8 (amended). For an address that sent no transaction since
    deployment, [getPlayerInfo] returns [(0, 0, 0)] and [canCheckIn]
    returns (without reverting) true exactly when [now >= 86400]. *)
Theorem fresh_account_view fx o txs a :
  Forall (not_sender a) txs ->
  getPlayerInfo (run fx (init o) txs) a = (0, 0, 0) /\
  forall now, canCheckIn (run fx (init o) txs) now a =
              Some (bool_decide (SECONDS_PER_DAY <= now)).
Proof.
  intros Hall. unfold getPlayerInfo, canCheckIn.
  rewrite run_other_player by done.
  cbn [players init zero_player lastCheckInTime availableTurns gamesPlayed].
  split; [done|]. intros now.
  replace (0 + SECONDS_PER_DAY <=? UINT256_MAX) with true by reflexivity.
  f_equal. rewrite Z.add_0_l.
  destruct (Z.leb_spec0 SECONDS_PER_DAY now) as [H|H].
  - by rewrite bool_decide_true.
  - by rewrite bool_decide_false.
Qed.

Lemma fresh_account_view_witness :
  Forall (not_sender 7) [tx 1 0 100000 DailyCheckIn] /\
  getPlayerInfo (run valid_proof (init 0) [tx 1 0 100000 DailyCheckIn]) 7 = (0, 0, 0) /\
  forall now, canCheckIn (run valid_proof (init 0) [tx 1 0 100000 DailyCheckIn]) now 7 =
              Some (bool_decide (SECONDS_PER_DAY <= now)).
Proof.
  assert (Hf : Forall (not_sender 7) [tx 1 0 100000 DailyCheckIn])
    by (repeat constructor; unfold not_sender; simpl; lia).
  split; [exact Hf|]. apply (fresh_account_view valid_proof 0 _ 7 Hf).
Defined.

Definition s_bought : State :=
  fst (exec valid_proof (mkEnv 1 TURN_PRICE 86400) (BuyTurns 1) (init 0)).

(** C9 (counterexample). The purchase sentinel [lastCheckInTime = 1]
    shifts the check-in threshold to [1 + 86400]: an account whose first
    interaction is a purchase at time 86400 cannot check in right after it,
    although a fresh account could check in at that time. *)
Lemma purchase_sentinel_delays_checkin :
  snd (exec valid_proof (mkEnv 1 TURN_PRICE 86400) (BuyTurns 1) (init 0)) = true /\
  canCheckIn s_bought 86400 1 = Some false /\
  snd (exec valid_proof (mkEnv 1 0 86400) DailyCheckIn s_bought) = false /\
  canCheckIn (init 0) 86400 1 = Some true.
Proof. split; [|split; [|split]]; vm_compute; reflexivity. Qed.

(** C9 (amended). After a first-time [buyTurns] by an account that sent no
    other transaction, and as long as it sends none, its
    [lastCheckInTime] is the sentinel 1, so [canCheckIn] is true exactly
    when [now >= 1 + 86400]; its first [dailyCheckIn] at such a time
    (without attached value) succeeds, grants 3 turns and leaves the
    registry as it is. *)
Theorem purchase_then_checkin fx o txs1 e n s1 txs2 :
  Forall (not_sender (msg_sender e)) txs1 -> wf_env e ->
  exec fx e (BuyTurns n) (run fx (init o) txs1) = (s1, true) ->
  Forall (not_sender (msg_sender e)) txs2 ->
  lastCheckInTime (players (run fx s1 txs2) (msg_sender e)) = 1 /\
  (forall now, canCheckIn (run fx s1 txs2) now (msg_sender e) =
               Some (bool_decide (1 + SECONDS_PER_DAY <= now))) /\
  (forall e', msg_sender e' = msg_sender e -> msg_value e' = 0 ->
     1 + SECONDS_PER_DAY <= block_timestamp e' ->
     exists s3, exec fx e' DailyCheckIn (run fx s1 txs2) = (s3, true) /\
       availableTurns (players s3 (msg_sender e)) =
         availableTurns (players (run fx s1 txs2) (msg_sender e)) + DAILY_FREE_TURNS /\
       playerAddresses s3 = playerAddresses (run fx s1 txs2)).
Proof.
  intros Hall1 He Hexec Hall2.
  set (a := msg_sender e) in *. set (s0 := run fx (init o) txs1) in *.
  set (s2 := run fx s1 txs2).
  assert (H0 : players s0 a = zero_player) by (apply run_other_player; done).
  rewrite exec_buyTurns in Hexec.
  destruct (buy_ok e n s0) eqn:Hok; [|discriminate]. injection Hexec as <-.
  apply (buy_ok_iff e n s0 He) in Hok as (Hn & Hv & _).
  assert (Hs1 : players (buy_post e n s0) a = with_availableTurns (0 + n) (with_lastCheckInTime 1 zero_player)).
  { unfold buy_post. fold a.
    cbn [players push_log set_player set_playerAddresses set_balance].
    rewrite H0, Z.eqb_refl. reflexivity. }
  assert (Hs2 : players s2 a = players (buy_post e n s0) a) by (apply run_other_player; done).
  rewrite Hs1 in Hs2. clear Hs1.
  destruct He as [Hvr _]. rewrite Hv in Hvr.
  assert (Hn3 : n + DAILY_FREE_TURNS <= UINT256_MAX)
    by (unfold DAILY_FREE_TURNS, UINT256_MAX, TURN_PRICE in *; lia).
  split; [|split].
  - by rewrite Hs2.
  - intros now. unfold canCheckIn. rewrite Hs2.
    cbn [lastCheckInTime with_availableTurns with_lastCheckInTime].
    replace (1 + SECONDS_PER_DAY <=? UINT256_MAX) with true by reflexivity.
    f_equal. destruct (Z.leb_spec0 (1 + SECONDS_PER_DAY) now) as [H|H].
    + by rewrite bool_decide_true.
    + by rewrite bool_decide_false.
  - intros e' Ha' Hv' Ht'. rewrite exec_dailyCheckIn.
    assert (Hok : checkin_ok e' s2 = true).
    { unfold checkin_ok. rewrite Ha', Hs2, Hv'.
      cbn [lastCheckInTime availableTurns with_availableTurns with_lastCheckInTime].
      rewrite !andb_true_iff, Z.eqb_eq, !Z.leb_le.
      unfold SECONDS_PER_DAY, UINT256_MAX, DAILY_FREE_TURNS in *. lia. }
    rewrite Hok. exists (checkin_post e' s2). split; [done|].
    unfold checkin_post. rewrite Ha'.
    cbn [players push_log set_player playerAddresses]. rewrite Z.eqb_refl.
    unfold register_if_new. rewrite Hs2.
    cbn [lastCheckInTime availableTurns with_availableTurns with_lastCheckInTime Z.eqb].
    split; reflexivity.
Qed.

Lemma purchase_then_checkin_witness :
  Forall (not_sender 1) [] /\ wf_env (mkEnv 1 TURN_PRICE 100000) /\
  exec valid_proof (mkEnv 1 TURN_PRICE 100000) (BuyTurns 1) (run valid_proof (init 0) []) =
    (fst (exec valid_proof (mkEnv 1 TURN_PRICE 100000) (BuyTurns 1) (init 0)), true) /\
  lastCheckInTime (players (fst (exec valid_proof (mkEnv 1 TURN_PRICE 100000) (BuyTurns 1) (init 0))) 1) = 1.
Proof.
  assert (Hf : Forall (not_sender 1) []) by constructor.
  assert (He : wf_env (mkEnv 1 TURN_PRICE 100000))
    by (unfold wf_env, UINT256_MAX, TURN_PRICE; simpl; lia).
  assert (Hx : exec valid_proof (mkEnv 1 TURN_PRICE 100000) (BuyTurns 1) (run valid_proof (init 0) []) =
    (fst (exec valid_proof (mkEnv 1 TURN_PRICE 100000) (BuyTurns 1) (init 0)), true))
    by (vm_compute; reflexivity).
  split; [exact Hf|]. split; [exact He|]. split; [exact Hx|].
  apply (purchase_then_checkin valid_proof 0 [] (mkEnv 1 TURN_PRICE 100000) 1 _ [] Hf He Hx Hf).
Defined.

(** C10. In every reachable state, an address with [availableTurns > 0]
    or [gamesPlayed > 0] is in the registry, so [getLeaderboard] and
    [getTotalPlayers] cover every account that ever held or used a turn. *)
Theorem participants_registered fx s a :
  reachable fx s ->
  0 < availableTurns (players s a) \/ 0 < gamesPlayed (players s a) ->
  a ∈ playerAddresses s.
Proof.
  intros Hs Hpos. pose proof (reachable_inv fx s Hs) as Hinv.
  destruct (decide (a ∈ playerAddresses s)) as [Hin|Hn]; [done|]. exfalso.
  rewrite (inv_registered _ Hinv a) in Hn.
  assert (Hz : lastCheckInTime (players s a) = 0)
    by (destruct (Z.eq_dec (lastCheckInTime (players s a)) 0); tauto).
  apply (inv_fresh _ Hinv) in Hz. lia.
Qed.

Lemma participants_registered_witness :
  reachable valid_proof s_tied /\
  (0 < availableTurns (players s_tied 3) \/ 0 < gamesPlayed (players s_tied 3)) /\
  3 ∈ playerAddresses s_tied.
Proof.
  assert (Hpos : 0 < availableTurns (players s_tied 3) \/ 0 < gamesPlayed (players s_tied 3))
    by (right; vm_compute; reflexivity).
  split; [apply s_tied_reachable|]. split; [exact Hpos|].
  apply (participants_registered valid_proof s_tied 3 s_tied_reachable Hpos).
Defined.

Lemma checkin_spec_witness :
  let e := mkEnv 1 0 100000 in
  let r := exec valid_proof e DailyCheckIn (init 9) in
  reachable valid_proof (init 9) /\ wf_env e /\ snd r = true /\
  playerAddresses (fst r) = [1] /\ availableTurns (players (fst r) 1) = 3.
Proof.
  cbv zeta.
  assert (He : wf_env (mkEnv 1 0 100000)) by (unfold wf_env, UINT256_MAX; simpl; lia).
  destruct (checkin_spec valid_proof (mkEnv 1 0 100000) (init 9)
              (fst (exec valid_proof (mkEnv 1 0 100000) DailyCheckIn (init 9)))
              (snd (exec valid_proof (mkEnv 1 0 100000) DailyCheckIn (init 9)))
              (reach_init _ 9) He (surjective_pairing _)) as (Hiff & Heff & _).
  assert (Hok : snd (exec valid_proof (mkEnv 1 0 100000) DailyCheckIn (init 9)) = true).
  { apply Hiff. cbn. unfold SECONDS_PER_DAY, DAILY_FREE_TURNS, UINT256_MAX. lia. }
  destruct (Heff Hok) as (Ht & _ & Hreg). cbn [msg_sender] in Ht, Hreg.
  split; [apply reach_init|]. split; [exact He|]. split; [exact Hok|].
  split; [rewrite Hreg; reflexivity|rewrite Ht; reflexivity].
Defined.

Lemma buy_spec_witness :
  let e := mkEnv 2 (5 * TURN_PRICE) 7 in
  let r := exec valid_proof e (BuyTurns 5) (init 9) in
  reachable valid_proof (init 9) /\ wf_env e /\ snd r = true /\
  playerAddresses (fst r) = [2] /\ lastCheckInTime (players (fst r) 2) = 1 /\
  availableTurns (players (fst r) 2) = 5.
Proof.
  cbv zeta.
  assert (He : wf_env (mkEnv 2 (5 * TURN_PRICE) 7))
    by (unfold wf_env, UINT256_MAX, TURN_PRICE; simpl; lia).
  destruct (buy_spec valid_proof (mkEnv 2 (5 * TURN_PRICE) 7) 5 (init 9)
              (fst (exec valid_proof (mkEnv 2 (5 * TURN_PRICE) 7) (BuyTurns 5) (init 9)))
              (snd (exec valid_proof (mkEnv 2 (5 * TURN_PRICE) 7) (BuyTurns 5) (init 9)))
              (reach_init _ 9) He (surjective_pairing _)) as (Hiff & Heff & _).
  assert (Hok : snd (exec valid_proof (mkEnv 2 (5 * TURN_PRICE) 7) (BuyTurns 5) (init 9)) = true).
  { apply Hiff. cbn. unfold UINT256_MAX, TURN_PRICE. lia. }
  destruct (Heff Hok) as (Ht & Hnew & _).
  destruct Hnew as [Hreg Hl]; [intros Hin; inversion Hin|].
  cbn [msg_sender] in Ht, Hreg, Hl.
  split; [apply reach_init|]. split; [exact He|]. split; [exact Hok|].
  split; [rewrite Hreg; reflexivity|]. split; [exact Hl|rewrite Ht; reflexivity].
Defined.

(** ** Accounting, ownership and frame lemmas *)

Ltac eqb_simpl :=
  repeat match goal with
  | |- context [?x =? ?x] => rewrite (Z.eqb_refl x)
  | H : ?x <> ?y |- context [?x =? ?y] => rewrite (proj2 (Z.eqb_neq x y) H)
  | H : ?y <> ?x |- context [?x =? ?y] => rewrite (proj2 (Z.eqb_neq x y) (not_eq_sym H))
  end.

Lemma log_sum_snoc w l ev : log_sum w (l ++ [ev]) = log_sum w l + w ev.
Proof. induction l as [|x l IH]; simpl; [lia|rewrite IH; lia]. Qed.

Lemma register_if_new_balance a p s :
  balance (register_if_new a p s) = balance s.
Proof. unfold register_if_new. by destruct (_ =? _). Qed.

Lemma register_if_new_owner a p s :
  owner (register_if_new a p s) = owner s.
Proof. unfold register_if_new. by destruct (_ =? _). Qed.

Lemma init_acct o : acct_inv (init o).
Proof.
  split; cbn [players logs balance init log_sum zero_player availableTurns gamesPlayed
              lastCheckInTime].
  - reflexivity.
  - reflexivity.
  - reflexivity.
  - constructor.
  - intros; by left.
Qed.

Lemma checkin_acct e s :
  acct_inv s -> checkin_ok e s = true -> acct_inv (checkin_post e s).
Proof.
  intros [Ht Hg Hb Hev Hsen] Hok. unfold checkin_post. cbv zeta.
  set (a := msg_sender e) in *. set (p := players s a) in *.
  split; cbn [players logs balance push_log set_player];
    rewrite ?register_if_new_players, ?register_if_new_logs, ?register_if_new_balance,
      ?log_sum_snoc.
  - intros b. rewrite log_sum_snoc. case_addr b a; cbn [turns_credited]; eqb_simpl;
      cbn [availableTurns gamesPlayed with_lastCheckInTime with_availableTurns].
    + specialize (Ht a). fold p in Ht. lia.
    + rewrite Z.add_0_r. apply Ht.
  - intros b. rewrite log_sum_snoc. cbn [games_logged]. rewrite Z.add_0_r.
    case_addr b a; eqb_simpl; [apply Hg|apply Hg].
  - cbn [turns_sold amount_withdrawn]. rewrite Hb. ring.
  - apply Forall_app. split; [done|]. apply List.Forall_cons; [exact I|constructor].
  - intros b. rewrite checkin_times_app, checkin_times_CheckedIn.
    case_addr b a; eqb_simpl.
    + intros H. apply app_eq_nil in H as [_ H]. discriminate.
    + rewrite app_nil_r. apply Hsen.
Qed.

Lemma buy_acct e n s :
  acct_inv s -> buy_ok e n s = true -> acct_inv (buy_post e n s).
Proof.
  intros [Ht Hg Hb Hev Hsen] Hok. unfold buy_ok in Hok. guard_facts.
  unfold buy_post. cbv zeta.
  set (a := msg_sender e) in *. set (p := players s a) in *.
  assert (Hta := Ht a). fold p in Hta.
  destruct (Z.eqb_spec (lastCheckInTime p) 0) as [Hz|Hz];
  split; cbn [players logs balance push_log set_player set_playerAddresses set_balance];
    rewrite ?log_sum_snoc.
  all: try (intros b; rewrite log_sum_snoc).
  all: try (case_addr b a); cbn [turns_credited games_logged turns_sold amount_withdrawn];
    eqb_simpl; cbn [availableTurns gamesPlayed lastCheckInTime with_availableTurns
                    with_lastCheckInTime].
  all: rewrite ?Z.add_0_r.
  all: try (rewrite Hb, H1; ring).
  all: try (apply Forall_app; split; [done|];
            apply List.Forall_cons; [split; [lia|done]|constructor]).
  all: try lia.
  all: try apply Ht; try apply Hg.
  all: try (fold p; apply Hg).
  all: intros b Hc; rewrite checkin_times_app in Hc; cbn [checkin_times] in Hc;
    rewrite app_nil_r in Hc; case_addr b a; eqb_simpl;
    cbn [lastCheckInTime with_availableTurns with_lastCheckInTime];
    try (by right); by apply Hsen.
Qed.

Lemma play_acct e p0 s :
  acct_inv s ->
  lastCheckInTime p0 = lastCheckInTime (players s (msg_sender e)) ->
  availableTurns p0 = availableTurns (players s (msg_sender e)) ->
  gamesPlayed p0 = gamesPlayed (players s (msg_sender e)) ->
  acct_inv (play_post e p0 s).
Proof.
  intros [Ht Hg Hb Hev Hsen] Hl Hv Hgp. unfold play_post. cbv zeta.
  set (a := msg_sender e) in *. set (p := players s a) in *.
  split; cbn [players logs balance push_log set_player].
  all: try (intros b; rewrite !log_sum_snoc).
  all: try (case_addr b a); cbn [turns_credited games_logged turns_sold amount_withdrawn];
    eqb_simpl; cbn [availableTurns gamesPlayed lastCheckInTime with_availableTurns
                    with_gamesPlayed].
  all: rewrite ?Z.add_0_r.
  - specialize (Ht a). fold p in Ht. lia.
  - apply Ht.
  - specialize (Hg a). fold p in Hg. lia.
  - apply Hg.
  - rewrite !log_sum_snoc. cbn [turns_sold amount_withdrawn]. rewrite Hb. ring.
  - rewrite <- app_assoc. apply Forall_app. split; [done|].
    repeat apply List.Forall_cons; try exact I. constructor.
  - intros b Hc. rewrite !checkin_times_app in Hc. cbn [checkin_times] in Hc.
    rewrite !app_nil_r in Hc. case_addr b a; eqb_simpl;
      cbn [lastCheckInTime with_availableTurns with_gamesPlayed].
    + rewrite Hl. by apply Hsen.
    + by apply Hsen.
Qed.

Lemma withdraw_acct s : acct_inv s -> acct_inv (withdraw_post s).
Proof.
  intros [Ht Hg Hb Hev Hsen]. unfold withdraw_post.
  split; cbn [players logs balance push_log set_balance].
  all: try (intros b; rewrite !log_sum_snoc).
  all: cbn [turns_credited games_logged turns_sold amount_withdrawn]; rewrite ?Z.add_0_r.
  - apply Ht.
  - apply Hg.
  - rewrite !log_sum_snoc. cbn [turns_sold amount_withdrawn]. rewrite Hb. ring.
  - apply Forall_app. split; [done|]. apply List.Forall_cons; [exact I|constructor].
  - intros b Hc. rewrite checkin_times_app in Hc. cbn [checkin_times] in Hc.
    rewrite app_nil_r in Hc. by apply Hsen.
Qed.

Lemma transfer_acct o s : acct_inv s -> acct_inv (set_owner o s).
Proof. intros [Ht Hg Hb Hev Hsen]. by split. Qed.

Lemma exec_acct fx e c s :
  acct_inv s -> acct_inv (fst (exec fx e c s)).
Proof.
  intros Hs. destruct c.
  - rewrite exec_dailyCheckIn. destruct (checkin_ok e s) eqn:Hok; [|done].
    by apply checkin_acct.
  - rewrite exec_buyTurns. destruct (buy_ok e turnCount s) eqn:Hok; [|done].
    by apply buy_acct.
  - rewrite exec_dropBall. destruct (play_ok e s) eqn:Hok; [|done].
    destruct (fx encryptedScore inputProof); [|done]. by apply play_acct.
  - rewrite exec_playTurn. destruct (play_ok e s) eqn:Hok; [|done].
    by apply play_acct.
  - rewrite exec_withdraw. destruct (withdraw_ok e s); [|done]. by apply withdraw_acct.
  - rewrite exec_transferOwnership. destruct (transfer_ok e newOwner s); [|done].
    by apply transfer_acct.
Qed.

Lemma reachable_acct fx s : reachable fx s -> acct_inv s.
Proof. induction 1; [apply init_acct|]. by apply exec_acct. Qed.

Lemma exec_owner fx e c s :
  owner (fst (exec fx e c s)) = owner s \/
  exists o, c = TransferOwnership o /\ transfer_ok e o s = true /\
            fst (exec fx e c s) = set_owner o s.
Proof.
  destruct c.
  - left. rewrite exec_dailyCheckIn. destruct (checkin_ok e s); [|done].
    unfold checkin_post. cbn [fst owner push_log set_player]. apply register_if_new_owner.
  - left. rewrite exec_buyTurns. destruct (buy_ok e turnCount s); [|done].
    unfold buy_post. cbv zeta. by destruct (_ =? 0).
  - left. rewrite exec_dropBall. destruct (play_ok e s); [|done].
    by destruct (fx encryptedScore inputProof).
  - left. rewrite exec_playTurn. by destruct (play_ok e s).
  - left. rewrite exec_withdraw. by destruct (withdraw_ok e s).
  - rewrite exec_transferOwnership. destruct (transfer_ok e newOwner s) eqn:Hok.
    + right. by exists newOwner.
    + by left.
Qed.

Lemma StronglySorted_games_lookup (l : list LeaderboardEntry) (i j : nat) :
  StronglySorted games_desc l -> (i < j)%nat -> (j < length l)%nat ->
  games_desc (l !!! i) (l !!! j).
Proof.
  revert i j. induction l as [|x l IH]; intros i j Hs Hij Hj; simpl in Hj; [lia|].
  apply StronglySorted_inv in Hs as [Hs Hx].
  destruct j as [|j]; [lia|]. rewrite !list_lookup_total_alt. destruct i as [|i].
  - change ((x :: l) !! 0%nat) with (Some x). change ((x :: l) !! S j) with (l !! j).
    destruct (lookup_lt_is_Some_2 l j) as [y Hy]; [lia|]. rewrite Hy. simpl.
    rewrite List.Forall_forall in Hx. apply Hx. apply list_elem_of_In.
    by apply list_elem_of_lookup_2 with j.
  - change ((x :: l) !! S i) with (l !! i). change ((x :: l) !! S j) with (l !! j).
    rewrite <- !list_lookup_total_alt. apply IH; [done|lia|lia].
Qed.

Lemma inner_loop_sorted i j f lb :
  StronglySorted games_desc lb -> (i < j)%nat -> (j + f <= length lb)%nat ->
  inner_loop i j f lb = lb.
Proof.
  revert j. induction f as [|f IH]; intros j Hs Hij Hf; [done|]. simpl.
  assert (Hstep : sort_step i j lb = lb).
  { unfold sort_step. pose proof (StronglySorted_games_lookup lb i j Hs Hij ltac:(lia)) as Hg.
    unfold games_desc in Hg. destruct (Z.ltb_spec (entryGamesPlayed (lb !!! i))
                                          (entryGamesPlayed (lb !!! j))); [lia|done]. }
  rewrite Hstep. apply IH; [done|lia|lia].
Qed.

Lemma outer_loop_sorted i f lb :
  StronglySorted games_desc lb -> (i + f <= length lb)%nat ->
  outer_loop (length lb) i f lb = lb.
Proof.
  revert i. induction f as [|f IH]; intros i Hs Hf; [done|]. simpl.
  rewrite inner_loop_sorted; [|done|lia|lia]. apply IH; [done|lia].
Qed.

Lemma games_desc_transitive : Transitive games_desc.
Proof. intros x y z. unfold games_desc. lia. Qed.

(** ** Further properties of the contract *)

(** X1. Ownership changes only through a successful [transferOwnership]:
    the caller is the current owner, attaches no value, names a nonzero
    new owner, and nothing but [owner] changes. *)
Theorem owner_changes_only_by_transfer fx e c s :
  owner (fst (exec fx e c s)) <> owner s ->
  exists o, c = TransferOwnership o /\ msg_sender e = owner s /\ msg_value e = 0 /\
            o <> 0 /\ fst (exec fx e c s) = set_owner o s.
Proof.
  intros Hne. destruct (exec_owner fx e c s) as [Heq|(o & -> & Hok & Hs')];
    [contradiction|].
  exists o. unfold transfer_ok in Hok. guard_facts. auto.
Qed.

Lemma owner_changes_only_by_transfer_witness :
  owner (fst (exec valid_proof (mkEnv 9 0 5) (TransferOwnership 4) (init 9))) <> owner (init 9) /\
  exists o, TransferOwnership 4 = TransferOwnership o /\ msg_sender (mkEnv 9 0 5) = owner (init 9) /\
    msg_value (mkEnv 9 0 5) = 0 /\ o <> 0 /\
    fst (exec valid_proof (mkEnv 9 0 5) (TransferOwnership 4) (init 9)) = set_owner o (init 9).
Proof.
  assert (H : owner (fst (exec valid_proof (mkEnv 9 0 5) (TransferOwnership 4) (init 9)))
              <> owner (init 9)) by (vm_compute; discriminate).
  split; [exact H|]. apply (owner_changes_only_by_transfer valid_proof _ _ _ H).
Defined.

(** X2. If the deployer is not the zero address, the owner is never the
    zero address, whatever transactions follow. *)
Theorem owner_never_zero fx d txs :
  d <> 0 -> owner (run fx (init d) txs) <> 0.
Proof.
  intros Hd. change d with (owner (init d)) in Hd. revert Hd. generalize (init d).
  induction txs as [|[e c] txs IH]; intros s Hs; [done|]. simpl. apply IH.
  destruct (exec_owner fx e c s) as [-> |(o & -> & Hok & ->)]; [done|].
  unfold transfer_ok in Hok. guard_facts. done.
Qed.

Lemma owner_never_zero_witness :
  9 <> 0 /\ owner (run valid_proof (init 9) [tx 9 0 5 (TransferOwnership 0)]) <> 0.
Proof.
  split; [lia|]. apply (owner_never_zero valid_proof 9 _). lia.
Defined.

(** X3. Funds leave the contract only through [withdraw] called by the
    owner, which sends the whole balance: the balance drops to 0, a
    [Withdrawal(owner, amount)] event is logged, and neither the player
    records, the registry nor the owner change. *)
Theorem funds_leave_only_by_owner_withdraw fx e c s :
  getBalance (fst (exec fx e c s)) < getBalance s ->
  c = Withdraw /\ msg_sender e = owner s /\ getBalance (fst (exec fx e c s)) = 0 /\
  logs (fst (exec fx e c s)) = logs s ++ [Withdrawal (owner s) (getBalance s)] /\
  players (fst (exec fx e c s)) = players s /\
  playerAddresses (fst (exec fx e c s)) = playerAddresses s /\
  owner (fst (exec fx e c s)) = owner s.
Proof.
  unfold getBalance. intros Hlt. destruct c.
  - exfalso. rewrite exec_dailyCheckIn in Hlt. destruct (checkin_ok e s); [|simpl in Hlt; lia].
    unfold checkin_post in Hlt. cbn [fst balance push_log set_player] in Hlt.
    rewrite register_if_new_balance in Hlt. lia.
  - exfalso. rewrite exec_buyTurns in Hlt.
    destruct (buy_ok e turnCount s) eqn:Hok; [|simpl in Hlt; lia].
    unfold buy_ok in Hok. guard_facts.
    assert (Hpos : 0 < turnCount * TURN_PRICE) by (apply Z.mul_pos_pos; [lia|reflexivity]).
    unfold buy_post in Hlt. cbv zeta in Hlt.
    destruct (_ =? 0); cbn [fst balance push_log set_player set_playerAddresses set_balance] in Hlt;
      lia.
  - exfalso. rewrite exec_dropBall in Hlt. destruct (play_ok e s); [|simpl in Hlt; lia].
    destruct (fx encryptedScore inputProof); simpl in Hlt; lia.
  - exfalso. rewrite exec_playTurn in Hlt. destruct (play_ok e s); simpl in Hlt; lia.
  - rewrite exec_withdraw in *. destruct (withdraw_ok e s) eqn:Hok; [|simpl in Hlt; lia].
    unfold withdraw_ok in Hok. guard_facts. unfold withdraw_post.
    cbn [fst balance logs players playerAddresses owner push_log set_balance].
    repeat split; [done|lia].
  - exfalso. rewrite exec_transferOwnership in Hlt.
    destruct (transfer_ok e newOwner s); simpl in Hlt; lia.
Qed.

Definition s_funded : State :=
  run valid_proof (init 9) [tx 2 (2 * TURN_PRICE) 7 (BuyTurns 2)].

Lemma funds_leave_only_by_owner_withdraw_witness :
  getBalance (fst (exec valid_proof (mkEnv 9 0 8) Withdraw s_funded)) < getBalance s_funded /\
  Withdraw = Withdraw /\ msg_sender (mkEnv 9 0 8) = owner s_funded /\
  getBalance (fst (exec valid_proof (mkEnv 9 0 8) Withdraw s_funded)) = 0 /\
  logs (fst (exec valid_proof (mkEnv 9 0 8) Withdraw s_funded)) =
    logs s_funded ++ [Withdrawal (owner s_funded) (getBalance s_funded)] /\
  players (fst (exec valid_proof (mkEnv 9 0 8) Withdraw s_funded)) = players s_funded /\
  playerAddresses (fst (exec valid_proof (mkEnv 9 0 8) Withdraw s_funded)) =
    playerAddresses s_funded /\
  owner (fst (exec valid_proof (mkEnv 9 0 8) Withdraw s_funded)) = owner s_funded.
Proof.
  assert (H : getBalance (fst (exec valid_proof (mkEnv 9 0 8) Withdraw s_funded)) <
              getBalance s_funded) by (vm_compute; reflexivity).
  split; [exact H|]. apply (funds_leave_only_by_owner_withdraw valid_proof _ _ _ H).
Defined.

Lemma s_funded_reachable : reachable valid_proof s_funded.
Proof.
  unfold s_funded. apply (run_reachable _ (init 9)); [apply reach_init|].
  apply List.Forall_cons; [|apply List.Forall_nil].
  split; [unfold wf_env, UINT256_MAX, TURN_PRICE; simpl; lia|simpl; unfold UINT256_MAX; lia].
Qed.

(** X4. In every reachable state the contract balance equals the turn
    price times the number of turns sold (summed over the
    [TurnsPurchased] events) minus the amounts withdrawn (summed over the
    [Withdrawal] events). Ether reaches the contract only through its own
    entry points here: transfers forced on it from outside (e.g. by
    [selfdestruct]) are not part of the model. *)
Theorem balance_matches_events fx s :
  reachable fx s ->
  getBalance s = TURN_PRICE * log_sum turns_sold (logs s) - log_sum amount_withdrawn (logs s).
Proof. intros Hs. apply (acc_balance _ (reachable_acct fx s Hs)). Qed.

Lemma balance_matches_events_witness :
  reachable valid_proof s_funded /\ getBalance s_funded = 2 * TURN_PRICE /\
  getBalance s_funded =
    TURN_PRICE * log_sum turns_sold (logs s_funded) - log_sum amount_withdrawn (logs s_funded).
Proof.
  split; [apply s_funded_reachable|]. split; [vm_compute; reflexivity|].
  apply (balance_matches_events valid_proof s_funded s_funded_reachable).
Defined.

(** X5. In every reachable state each [TurnsPurchased] event records a
    positive number of turns and a payment of exactly that number times
    the turn price. *)
Theorem purchase_events_priced fx s :
  reachable fx s ->
  forall a n v, TurnsPurchased a n v ∈ logs s -> 0 < n /\ v = n * TURN_PRICE.
Proof.
  intros Hs a n v Hin. pose proof (acc_events _ (reachable_acct fx s Hs)) as Hev.
  rewrite Forall_forall in Hev. apply (Hev _ Hin).
Qed.

Lemma purchase_events_priced_witness :
  reachable valid_proof s_funded /\ TurnsPurchased 2 2 (2 * TURN_PRICE) ∈ logs s_funded /\
  0 < 2 /\ 2 * TURN_PRICE = 2 * TURN_PRICE.
Proof.
  assert (Hin : TurnsPurchased 2 2 (2 * TURN_PRICE) ∈ logs s_funded).
  { replace (logs s_funded) with [TurnsPurchased 2 2 (2 * TURN_PRICE)] by (vm_compute; reflexivity).
    apply list_elem_of_singleton. reflexivity. }
  split; [apply s_funded_reachable|]. split; [exact Hin|].
  apply (purchase_events_priced valid_proof s_funded s_funded_reachable 2 2 _ Hin).
Defined.

(** X6. In every reachable state, for every account, [availableTurns +
    gamesPlayed] equals the turns credited to it by its events: the
    [turnsGranted] of its [CheckedIn] events plus the [turnsBought] of its
    [TurnsPurchased] events. Turns are neither lost nor created. *)
Theorem turns_match_events fx s a :
  reachable fx s ->
  availableTurns (players s a) + gamesPlayed (players s a) = log_sum (turns_credited a) (logs s).
Proof. intros Hs. apply (acc_turns _ (reachable_acct fx s Hs)). Qed.

Lemma turns_match_events_witness :
  reachable valid_proof s_tied /\
  availableTurns (players s_tied 3) + gamesPlayed (players s_tied 3) =
    log_sum (turns_credited 3) (logs s_tied).
Proof.
  split; [apply s_tied_reachable|]. apply (turns_match_events valid_proof s_tied 3 s_tied_reachable).
Defined.

(** X7. In every reachable state, for every account, [gamesPlayed] equals
    the number of [GamePlayed] events emitted for it. *)
Theorem games_match_events fx s a :
  reachable fx s -> gamesPlayed (players s a) = log_sum (games_logged a) (logs s).
Proof. intros Hs. apply (acc_games _ (reachable_acct fx s Hs)). Qed.

Lemma games_match_events_witness :
  reachable valid_proof s_tied /\ gamesPlayed (players s_tied 3) = 2 /\
  gamesPlayed (players s_tied 3) = log_sum (games_logged 3) (logs s_tied).
Proof.
  split; [apply s_tied_reachable|]. split; [vm_compute; reflexivity|].
  apply (games_match_events valid_proof s_tied 3 s_tied_reachable).
Defined.

(** X8. In every reachable state, an account's [lastCheckInTime] is one
    of: 0, for an account outside the registry with no check-in; the
    purchase sentinel 1, for a registered account that never checked in;
    or the timestamp of its latest [CheckedIn] event, which is at least
    86400. *)
Theorem last_checkin_time_cases fx s a :
  reachable fx s ->
  (lastCheckInTime (players s a) = 0 /\ (a ∉ playerAddresses s) /\ checkin_times a (logs s) = []) \/
  (lastCheckInTime (players s a) = 1 /\ a ∈ playerAddresses s /\ checkin_times a (logs s) = []) \/
  (SECONDS_PER_DAY <= lastCheckInTime (players s a) /\ a ∈ playerAddresses s /\
   last (checkin_times a (logs s)) = Some (lastCheckInTime (players s a))).
Proof.
  intros Hs. pose proof (reachable_inv fx s Hs) as Hinv.
  pose proof (reachable_acct fx s Hs) as Hacc.
  pose proof (inv_registered _ Hinv a) as Hreg.
  destruct (last (checkin_times a (logs s))) as [t|] eqn:Hl.
  - right; right. destruct (inv_last _ Hinv a t Hl) as [Hlt Hge].
    rewrite Hlt. split; [done|]. split; [|done].
    rewrite Hreg. unfold SECONDS_PER_DAY in Hge. lia.
  - rewrite last_None in Hl. destruct (acc_sentinel _ Hacc a Hl) as [Hz|Ho].
    + left. split; [done|]. split; [|done]. rewrite Hreg. auto.
    + right; left. split; [done|]. split; [|done]. rewrite Hreg, Ho. lia.
Qed.

Lemma last_checkin_time_cases_witness :
  reachable valid_proof s_funded /\
  ((lastCheckInTime (players s_funded 2) = 0 /\ (2 ∉ playerAddresses s_funded) /\
    checkin_times 2 (logs s_funded) = []) \/
   (lastCheckInTime (players s_funded 2) = 1 /\ 2 ∈ playerAddresses s_funded /\
    checkin_times 2 (logs s_funded) = []) \/
   (SECONDS_PER_DAY <= lastCheckInTime (players s_funded 2) /\ 2 ∈ playerAddresses s_funded /\
    last (checkin_times 2 (logs s_funded)) = Some (lastCheckInTime (players s_funded 2)))).
Proof.
  split; [apply s_funded_reachable|].
  apply (last_checkin_time_cases valid_proof s_funded 2 s_funded_reachable).
Defined.

(** X9. Every entry point other than [buyTurns] is non-payable: a call
    that attaches a nonzero value is rejected and changes nothing. *)
Theorem nonpayable_entry_points fx e c s :
  msg_value e <> 0 -> (forall n, c <> BuyTurns n) -> exec fx e c s = (s, false).
Proof.
  intros Hv Hc. pose proof (proj2 (Z.eqb_neq _ _) Hv) as Hv'. destruct c.
  - rewrite exec_dailyCheckIn. unfold checkin_ok. by rewrite Hv'.
  - by destruct (Hc turnCount).
  - rewrite exec_dropBall. unfold play_ok. by rewrite Hv'.
  - rewrite exec_playTurn. unfold play_ok. by rewrite Hv'.
  - rewrite exec_withdraw. unfold withdraw_ok. by rewrite Hv'.
  - rewrite exec_transferOwnership. unfold transfer_ok. by rewrite Hv'.
Qed.

Lemma nonpayable_entry_points_witness :
  msg_value (mkEnv 1 1 100001) <> 0 /\ (forall n, PlayTurn <> BuyTurns n) /\
  exec valid_proof (mkEnv 1 1 100001) PlayTurn s_checked_in = (s_checked_in, false).
Proof.
  assert (Hv : msg_value (mkEnv 1 1 100001) <> 0) by (simpl; lia).
  assert (Hc : forall n, PlayTurn <> BuyTurns n) by discriminate.
  split; [exact Hv|]. split; [exact Hc|].
  apply (nonpayable_entry_points valid_proof _ _ _ Hv Hc).
Defined.

(** X10. From a reachable state, a transaction only appends: the registry
    either stays as it is or gains the caller at its end, and only when
    the caller was not in it; the event log keeps every earlier event, in
    order. *)
Theorem registry_and_log_append_only fx e c s :
  reachable fx s ->
  (playerAddresses (fst (exec fx e c s)) = playerAddresses s \/
   playerAddresses (fst (exec fx e c s)) = playerAddresses s ++ [msg_sender e] /\
   (msg_sender e ∉ playerAddresses s)) /\
  exists l, logs (fst (exec fx e c s)) = logs s ++ l.
Proof.
  intros Hs. pose proof (reachable_inv fx s Hs) as Hinv.
  pose proof (inv_registered _ Hinv (msg_sender e)) as Hreg.
  assert (Hnew : lastCheckInTime (players s (msg_sender e)) = 0 ->
                 msg_sender e ∉ playerAddresses s) by (intros Hz Hin; by apply Hreg in Hin).
  destruct c.
  - rewrite exec_dailyCheckIn. destruct (checkin_ok e s);
      [|split; [by left|exists []; by rewrite app_nil_r]].
    unfold checkin_post. cbn [fst playerAddresses logs push_log set_player].
    rewrite register_if_new_logs. split; [|eexists; reflexivity].
    unfold register_if_new. destruct (Z.eqb_spec (lastCheckInTime (players s (msg_sender e))) 0).
    + right. auto.
    + by left.
  - rewrite exec_buyTurns. destruct (buy_ok e turnCount s);
      [|split; [by left|exists []; by rewrite app_nil_r]].
    unfold buy_post. cbv zeta.
    destruct (Z.eqb_spec (lastCheckInTime (players s (msg_sender e))) 0);
      cbn [fst playerAddresses logs push_log set_player set_playerAddresses set_balance];
      (split; [|eexists; reflexivity]); [right; auto|by left].
  - rewrite exec_dropBall. destruct (play_ok e s);
      [|split; [by left|exists []; by rewrite app_nil_r]].
    destruct (fx encryptedScore inputProof); [|split; [by left|exists []; by rewrite app_nil_r]].
    cbn [fst playerAddresses logs push_log set_player play_post].
    split; [by left|]. eexists. by rewrite <- app_assoc.
  - rewrite exec_playTurn. destruct (play_ok e s);
      [|split; [by left|exists []; by rewrite app_nil_r]].
    cbn [fst playerAddresses logs push_log set_player play_post].
    split; [by left|]. eexists. by rewrite <- app_assoc.
  - rewrite exec_withdraw. destruct (withdraw_ok e s);
      [|split; [by left|exists []; by rewrite app_nil_r]].
    split; [by left|eexists; reflexivity].
  - rewrite exec_transferOwnership. destruct (transfer_ok e newOwner s);
      split; [by left|exists []; by rewrite app_nil_r|by left|exists []; by rewrite app_nil_r].
Qed.

Lemma registry_and_log_append_only_witness :
  reachable valid_proof s_tied /\
  ((playerAddresses (fst (exec valid_proof (mkEnv 4 0 100000) DailyCheckIn s_tied)) =
      playerAddresses s_tied \/
    playerAddresses (fst (exec valid_proof (mkEnv 4 0 100000) DailyCheckIn s_tied)) =
      playerAddresses s_tied ++ [msg_sender (mkEnv 4 0 100000)] /\
    (msg_sender (mkEnv 4 0 100000) ∉ playerAddresses s_tied)) /\
   exists l, logs (fst (exec valid_proof (mkEnv 4 0 100000) DailyCheckIn s_tied)) =
             logs s_tied ++ l).
Proof.
  split; [apply s_tied_reachable|].
  apply (registry_and_log_append_only valid_proof _ _ _ s_tied_reachable).
Defined.

(** X11. No transaction decreases any account's [gamesPlayed] or
    [lastCheckInTime]. *)
Theorem progress_never_decreases fx e c s a :
  gamesPlayed (players s a) <= gamesPlayed (players (fst (exec fx e c s)) a) /\
  lastCheckInTime (players s a) <= lastCheckInTime (players (fst (exec fx e c s)) a).
Proof.
  destruct (Z.eq_dec (msg_sender e) a) as [<-|Hne];
    [|rewrite (exec_other_player fx e c s a Hne); lia].
  destruct c.
  - rewrite exec_dailyCheckIn. destruct (checkin_ok e s) eqn:Hok; [|simpl; lia].
    unfold checkin_ok in Hok. guard_facts. unfold checkin_post.
    cbn [fst players push_log set_player]. rewrite Z.eqb_refl.
    cbn [gamesPlayed lastCheckInTime with_lastCheckInTime with_availableTurns].
    unfold SECONDS_PER_DAY in *.  lia.
  - rewrite exec_buyTurns. destruct (buy_ok e turnCount s); [|simpl; lia].
    unfold buy_post. cbv zeta.
    destruct (Z.eqb_spec (lastCheckInTime (players s (msg_sender e))) 0);
      cbn [fst players push_log set_player set_playerAddresses set_balance];
      rewrite Z.eqb_refl;
      cbn [gamesPlayed lastCheckInTime with_lastCheckInTime with_availableTurns]; lia.
  - rewrite exec_dropBall. destruct (play_ok e s); [|simpl; lia].
    destruct (fx encryptedScore inputProof); [|simpl; lia].
    cbn [fst players push_log set_player play_post]. rewrite Z.eqb_refl.
    cbn [gamesPlayed lastCheckInTime with_gamesPlayed with_availableTurns with_totalScore].
    lia.
  - rewrite exec_playTurn. destruct (play_ok e s); [|simpl; lia].
    cbn [fst players push_log set_player play_post]. rewrite Z.eqb_refl.
    cbn [gamesPlayed lastCheckInTime with_gamesPlayed with_availableTurns].
    lia.
  - rewrite exec_withdraw. destruct (withdraw_ok e s); simpl; lia.
  - rewrite exec_transferOwnership. destruct (transfer_ok e newOwner s); simpl; lia.
Qed.

(** X12. [dropBall] with an input proof that [FHE.fromExternal] rejects
    always reverts. With an accepted proof decoding to [sc], it succeeds
    exactly when [playTurn] would and has the same effect on turns, games,
    registry, balance, owner and event log; in addition the caller's
    encrypted [totalScore] becomes [totalScore + sc] modulo 2^32. *)
Theorem dropBall_is_scored_playTurn fx e enc pf s :
  match fx enc pf with
  | None => exec fx e (DropBall enc pf) s = (s, false)
  | Some sc =>
      snd (exec fx e (DropBall enc pf) s) = snd (exec fx e PlayTurn s) /\
      playerAddresses (fst (exec fx e (DropBall enc pf) s)) =
        playerAddresses (fst (exec fx e PlayTurn s)) /\
      logs (fst (exec fx e (DropBall enc pf) s)) = logs (fst (exec fx e PlayTurn s)) /\
      balance (fst (exec fx e (DropBall enc pf) s)) = balance (fst (exec fx e PlayTurn s)) /\
      owner (fst (exec fx e (DropBall enc pf) s)) = owner (fst (exec fx e PlayTurn s)) /\
      forall b,
        getPlayerInfo (fst (exec fx e (DropBall enc pf) s)) b =
          getPlayerInfo (fst (exec fx e PlayTurn s)) b /\
        getPlayerScore (fst (exec fx e (DropBall enc pf) s)) b =
          if snd (exec fx e PlayTurn s) && (b =? msg_sender e)
          then fhe_add (getPlayerScore s b) sc else getPlayerScore s b
  end.
Proof.
  rewrite exec_dropBall, exec_playTurn.
  destruct (fx enc pf) as [sc|]; [|by destruct (play_ok e s)].
  destruct (play_ok e s); cbn [fst snd].
  - do 5 (split; [reflexivity|]). intros b. unfold getPlayerInfo, getPlayerScore.
    cbn [players play_post push_log set_player andb].
    destruct (Z.eqb_spec b (msg_sender e)) as [->|]; split; reflexivity.
  - do 5 (split; [reflexivity|]). intros b. split; [reflexivity|]. reflexivity.
Qed.

(** X13. An account's encrypted score changes only through a successful
    [dropBall] sent by that account whose proof [FHE.fromExternal]
    accepts; the new score is the old one plus the decoded value modulo
    2^32. *)
Theorem score_changes_only_by_own_dropBall fx e c s a :
  getPlayerScore (fst (exec fx e c s)) a <> getPlayerScore s a ->
  msg_sender e = a /\
  exists enc pf sc, c = DropBall enc pf /\ fx enc pf = Some sc /\
    getPlayerScore (fst (exec fx e c s)) a = fhe_add (getPlayerScore s a) sc.
Proof.
  unfold getPlayerScore. intros Hne.
  destruct (Z.eq_dec (msg_sender e) a) as [<-|Hoth];
    [|by rewrite (exec_other_player fx e c s a Hoth) in Hne].
  split; [done|]. destruct c.
  - exfalso. apply Hne. rewrite exec_dailyCheckIn. destruct (checkin_ok e s); [|done].
    unfold checkin_post. cbn [fst players push_log set_player]. by rewrite Z.eqb_refl.
  - exfalso. apply Hne. rewrite exec_buyTurns. destruct (buy_ok e turnCount s); [|done].
    unfold buy_post. cbv zeta.
    destruct (_ =? 0); cbn [fst players push_log set_player set_playerAddresses set_balance];
      by rewrite Z.eqb_refl.
  - rewrite exec_dropBall in *. destruct (play_ok e s); [|done].
    destruct (fx encryptedScore inputProof) as [sc|] eqn:Hfx; [|done].
    exists encryptedScore, inputProof, sc. split; [done|]. split; [done|].
    cbn [fst players play_post push_log set_player]. by rewrite Z.eqb_refl.
  - exfalso. apply Hne. rewrite exec_playTurn. destruct (play_ok e s); [|done].
    cbn [fst players play_post push_log set_player]. by rewrite Z.eqb_refl.
  - exfalso. apply Hne. rewrite exec_withdraw. by destruct (withdraw_ok e s).
  - exfalso. apply Hne. rewrite exec_transferOwnership. by destruct (transfer_ok e newOwner s).
Qed.

Lemma score_changes_only_by_own_dropBall_witness :
  getPlayerScore (fst (exec valid_proof (mkEnv 1 0 100001) (DropBall 5 []) s_checked_in)) 1 <>
    getPlayerScore s_checked_in 1 /\
  msg_sender (mkEnv 1 0 100001) = 1 /\
  exists enc pf sc, DropBall 5 [] = DropBall enc pf /\ valid_proof enc pf = Some sc /\
    getPlayerScore (fst (exec valid_proof (mkEnv 1 0 100001) (DropBall 5 []) s_checked_in)) 1 =
      fhe_add (getPlayerScore s_checked_in 1) sc.
Proof.
  assert (H : getPlayerScore (fst (exec valid_proof (mkEnv 1 0 100001) (DropBall 5 []) s_checked_in)) 1
              <> getPlayerScore s_checked_in 1) by (vm_compute; discriminate).
  split; [exact H|]. apply (score_changes_only_by_own_dropBall valid_proof _ _ _ _ H).
Defined.

(** X14. [canCheckIn] predicts [dailyCheckIn]: for a caller that attaches
    no value and whose turn count leaves room for the 3 free turns, a
    [dailyCheckIn] at time [t] succeeds exactly when [canCheckIn] for the
    caller at [t] returns true. *)
Theorem canCheckIn_predicts_dailyCheckIn fx e s :
  msg_value e = 0 ->
  availableTurns (players s (msg_sender e)) + DAILY_FREE_TURNS <= UINT256_MAX ->
  snd (exec fx e DailyCheckIn s) = true <->
  canCheckIn s (block_timestamp e) (msg_sender e) = Some true.
Proof.
  intros Hv Ht. rewrite exec_dailyCheckIn. unfold checkin_ok, canCheckIn. cbv zeta.
  rewrite Hv, (proj2 (Z.leb_le _ _) Ht), andb_true_r. cbn [Z.eqb andb].
  destruct (_ <=? UINT256_MAX); cbn [andb]; [|split; discriminate].
  destruct (_ <=? block_timestamp e); cbn [snd]; split; congruence.
Qed.

Lemma canCheckIn_predicts_dailyCheckIn_witness :
  msg_value (mkEnv 1 0 100000) = 0 /\
  availableTurns (players s_checked_in (msg_sender (mkEnv 1 0 100000))) + DAILY_FREE_TURNS
    <= UINT256_MAX /\
  (snd (exec valid_proof (mkEnv 1 0 100000) DailyCheckIn s_checked_in) = true <->
   canCheckIn s_checked_in (block_timestamp (mkEnv 1 0 100000)) (msg_sender (mkEnv 1 0 100000))
     = Some true).
Proof.
  assert (Hv : msg_value (mkEnv 1 0 100000) = 0) by reflexivity.
  assert (Ht : availableTurns (players s_checked_in (msg_sender (mkEnv 1 0 100000)))
               + DAILY_FREE_TURNS <= UINT256_MAX)
    by (replace (availableTurns (players s_checked_in (msg_sender (mkEnv 1 0 100000))))
          with 3 by (vm_compute; reflexivity); unfold DAILY_FREE_TURNS, UINT256_MAX; lia).
  split; [exact Hv|]. split; [exact Ht|].
  apply (canCheckIn_predicts_dailyCheckIn valid_proof _ _ Hv Ht).
Defined.

(** X15. When the registry is already ordered by non-increasing
    [gamesPlayed], the exchange sort of [getLeaderboard] swaps nothing:
    the leaderboard lists the players in registry order, ties included. *)
Theorem leaderboard_keeps_sorted_registry s :
  Sorted games_desc (leaderboard_entries s) -> getLeaderboard s = leaderboard_entries s.
Proof.
  intros Hs.
  apply (@Sorted_StronglySorted _ games_desc games_desc_transitive) in Hs.
  unfold getLeaderboard.
  replace (length (playerAddresses s)) with (length (leaderboard_entries s))
    by (unfold leaderboard_entries; apply length_map).
  apply outer_loop_sorted; [done|lia].
Qed.

Definition s_sorted : State :=
  run valid_proof (init 9)
    [tx 1 0 100000 DailyCheckIn; tx 2 0 100000 DailyCheckIn; tx 3 0 100000 DailyCheckIn;
     tx 1 0 100001 PlayTurn; tx 1 0 100001 PlayTurn;
     tx 2 0 100001 PlayTurn; tx 3 0 100002 PlayTurn].

Lemma leaderboard_keeps_sorted_registry_witness :
  Sorted games_desc (leaderboard_entries s_sorted) /\
  getLeaderboard s_sorted = leaderboard_entries s_sorted /\
  getLeaderboard s_sorted = [mkEntry 1 2; mkEntry 2 1; mkEntry 3 1].
Proof.
  assert (Hs : Sorted games_desc (leaderboard_entries s_sorted)).
  { replace (leaderboard_entries s_sorted) with [mkEntry 1 2; mkEntry 2 1; mkEntry 3 1]
      by (vm_compute; reflexivity).
    repeat constructor; unfold games_desc; simpl; lia. }
  split; [exact Hs|]. split; [apply (leaderboard_keeps_sorted_registry s_sorted Hs)|].
  vm_compute. reflexivity.
Defined.
